(** * TextDisplay: the typewriter text box of [textbox.js]

    A shallow embedding of the custom element [TextDisplay]: the text
    assignment entry point [attributeChangedCallback], the generator
    [letterGenerator], the reveal loop started by [showLetters] and the
    [pointerup] handler of the continue button.

    The platform is modelled as far as the element uses it:
    - a string is the list of its UTF-16 code units;
    - [String.prototype.trim] strips the ECMAScript WhiteSpace and
      LineTerminator code units from both ends;
    - the children of the text box are a list of spans, an element
      reference is a position in that list, and assigning the markup built
      from the trimmed text yields one span of class [char] per
      code unit; the markup parser gives the span that code unit as its
      text, except that it drops U+0000, which leaves the span empty, and
      turns a carriage return into a line feed;
    - [window.setInterval] registers a timer under a fresh identifier and
      [window.clearInterval] removes the timer of that identifier; each
      timer carries the variables its callback closes over;
    - an exception thrown by a callback ends that callback and keeps the
      mutations made before it. *)

From Stdlib Require Import String Ascii.
From stdpp Require Import gmap strings list.

Open Scope nat_scope.

(** ** Strings *)

Module JS.

(** A code unit, and a string as the sequence of its code units. *)
Abbreviation JSString := (list N).

Definition of_string (s : string) : JSString :=
  map N_of_ascii (list_ascii_of_string s).

(** WhiteSpace and LineTerminator of ECMAScript: the code units removed by
    [trim]. *)
Definition isWhiteSpace (c : N) : bool :=
  ((9 <=? c) && (c <=? 13) || (c =? 32) || (c =? 160) || (c =? 5760)
   || (8192 <=? c) && (c <=? 8202) || (c =? 8232) || (c =? 8233)
   || (c =? 8239) || (c =? 8287) || (c =? 12288) || (c =? 65279))%N.

Fixpoint trimStart (s : JSString) : JSString :=
  match s with
  | c :: s' => if isWhiteSpace c then trimStart s' else s
  | [] => []
  end.

Definition trimEnd (s : JSString) : JSString :=
  reverse (trimStart (reverse s)).

Definition trim (s : JSString) : JSString := trimEnd (trimStart s).

(** [s.split('')]: one single-unit string per code unit. *)
Definition split (s : JSString) : list JSString := (λ c, [c]) <$> s.

(** Truthiness of a string: only the empty string is falsy. *)
Definition truthy (s : JSString) : bool :=
  match s with [] => false | _ => true end.

End JS.

Import JS.

(** ** The element *)

(** A span of the text box: its text, its class list and its [hidden]
    attribute. *)
Record Span := mkSpan {
  textContent : JSString;
  classList : gset string;
  hidden : bool
}.

(** The generator object made by [letterGenerator]: the array it walks
    (element references) and the position of the next element to yield. *)
Record Generator := mkGenerator {
  gen_letters : list nat;
  gen_index : nat
}.

(** An active interval timer of [showLetters] with the two variables of
    the closure. *)
Record Timer := mkTimer {
  intervalID : nat;
  index : nat;
  lookForWhitespaceChar : bool
}.

Record TextDisplay := mkTextDisplay {
  continueButton_textContent : JSString;
  continueButton_hidden : bool;
  textBox_hidden : bool;
  textBox_data_complete : bool;
  textBox_children : list Span;
  accessibleTextBox_textContent : JSString;
  (** number of assignments made to the accessible text so far *)
  accessibleTextBox_writes : nat;
  letters : option Generator;
  timers : list Timer;
  next_intervalID : nat
}.

Definition label_Continue : JSString := of_string "Continue" ++ [8230%N].
Definition label_Done : JSString := of_string "Done".

(** The element as the constructor leaves it. *)
Definition constructor : TextDisplay :=
  {| continueButton_textContent := label_Continue;
     continueButton_hidden := true;
     textBox_hidden := true;
     textBox_data_complete := false;
     textBox_children := [];
     accessibleTextBox_textContent := [];
     accessibleTextBox_writes := 0;
     letters := None;
     timers := [];
     next_intervalID := 0 |}.

(** Field updates. *)
Definition set_continueButton_textContent (v : JSString) (self : TextDisplay) : TextDisplay :=
  mkTextDisplay v (continueButton_hidden self) (textBox_hidden self)
    (textBox_data_complete self) (textBox_children self)
    (accessibleTextBox_textContent self) (accessibleTextBox_writes self)
    (letters self) (timers self) (next_intervalID self).

Definition set_continueButton_hidden (v : bool) (self : TextDisplay) : TextDisplay :=
  mkTextDisplay (continueButton_textContent self) v (textBox_hidden self)
    (textBox_data_complete self) (textBox_children self)
    (accessibleTextBox_textContent self) (accessibleTextBox_writes self)
    (letters self) (timers self) (next_intervalID self).

Definition set_textBox_hidden (v : bool) (self : TextDisplay) : TextDisplay :=
  mkTextDisplay (continueButton_textContent self) (continueButton_hidden self) v
    (textBox_data_complete self) (textBox_children self)
    (accessibleTextBox_textContent self) (accessibleTextBox_writes self)
    (letters self) (timers self) (next_intervalID self).

Definition set_textBox_data_complete (v : bool) (self : TextDisplay) : TextDisplay :=
  mkTextDisplay (continueButton_textContent self) (continueButton_hidden self)
    (textBox_hidden self) v (textBox_children self)
    (accessibleTextBox_textContent self) (accessibleTextBox_writes self)
    (letters self) (timers self) (next_intervalID self).

Definition set_textBox_children (v : list Span) (self : TextDisplay) : TextDisplay :=
  mkTextDisplay (continueButton_textContent self) (continueButton_hidden self)
    (textBox_hidden self) (textBox_data_complete self) v
    (accessibleTextBox_textContent self) (accessibleTextBox_writes self)
    (letters self) (timers self) (next_intervalID self).

(** An assignment to the text of the accessible box; it is counted. *)
Definition set_accessibleTextBox_textContent (v : JSString) (self : TextDisplay) : TextDisplay :=
  mkTextDisplay (continueButton_textContent self) (continueButton_hidden self)
    (textBox_hidden self) (textBox_data_complete self) (textBox_children self)
    v (S (accessibleTextBox_writes self))
    (letters self) (timers self) (next_intervalID self).

Definition set_letters (v : option Generator) (self : TextDisplay) : TextDisplay :=
  mkTextDisplay (continueButton_textContent self) (continueButton_hidden self)
    (textBox_hidden self) (textBox_data_complete self) (textBox_children self)
    (accessibleTextBox_textContent self) (accessibleTextBox_writes self)
    v (timers self) (next_intervalID self).

Definition set_timers (v : list Timer) (self : TextDisplay) : TextDisplay :=
  mkTextDisplay (continueButton_textContent self) (continueButton_hidden self)
    (textBox_hidden self) (textBox_data_complete self) (textBox_children self)
    (accessibleTextBox_textContent self) (accessibleTextBox_writes self)
    (letters self) v (next_intervalID self).

(** ** The document tree of the text box *)

Definition classList_add (cls : string) (e : Span) : Span :=
  mkSpan (textContent e) ({[cls]} ∪ classList e) (hidden e).

Definition set_hidden (v : bool) (e : Span) : Span :=
  mkSpan (textContent e) (classList e) v.

Definition has_class (cls : string) (e : Span) : bool :=
  bool_decide (cls ∈ classList e).

(** Apply a mutation to the element a reference points to. *)
Definition on_element (f : Span → Span) (ref : nat) (self : TextDisplay) : TextDisplay :=
  set_textBox_children (alter f ref (textBox_children self)) self.

Definition previousElementSibling (ref : nat) : option nat :=
  match ref with
  | 0 => None
  | S p => Some p
  end.

Definition nextElementSibling (children : list Span) (ref : nat) : option nat :=
  if decide (S ref < length children) then Some (S ref) else None.

(** The text the markup parser makes of one code unit of character data:
    U+0000 is ignored, a carriage return is normalised to a line feed, and
    every other code unit is kept; a lone [<] or [&] opens neither a tag
    nor a character reference in front of [</span>]. *)
Definition parsed (c : N) : JSString :=
  if (c =? 0)%N then [] else if (c =? 13)%N then [10%N] else [c].

(** [`<span class="char">${char}</span>`] once parsed. *)
Definition char_span (char : JSString) : Span :=
  mkSpan (char ≫= parsed) {["char"]} false.

(** [querySelectorAll('.visible')] followed by [item.hidden = true]. *)
Definition hide_visible (children : list Span) : list Span :=
  (λ item, if has_class "visible" item
            then set_hidden true item else item) <$> children.

(** ** Timers *)

Definition setInterval (index0 : nat) (look0 : bool) (self : TextDisplay) : TextDisplay :=
  mkTextDisplay (continueButton_textContent self) (continueButton_hidden self)
    (textBox_hidden self) (textBox_data_complete self) (textBox_children self)
    (accessibleTextBox_textContent self) (accessibleTextBox_writes self)
    (letters self)
    (timers self ++ [mkTimer (next_intervalID self) index0 look0])
    (S (next_intervalID self)).

Definition clearInterval (id : nat) (self : TextDisplay) : TextDisplay :=
  set_timers (filter (λ t, intervalID t ≠ id) (timers self)) self.

(** The closure variables of the timer [id] after a callback that returns
    without clearing it. *)
Definition save_closure (id index' : nat) (look' : bool) (self : TextDisplay) : TextDisplay :=
  set_timers ((λ t, if decide (intervalID t = id)
                     then mkTimer id index' look' else t) <$> timers self) self.

Definition find_timer (id : nat) (self : TextDisplay) : option Timer :=
  snd <$> list_find (λ t, intervalID t = id) (timers self).

(** ** The generator *)

Definition letterGenerator (letters : list nat) : Generator :=
  mkGenerator letters 0.

(** [next()]: the element yielded, [None] once the generator is done, and
    the generator afterwards. *)
Definition next (g : Generator) : option nat * Generator :=
  match gen_letters g !! gen_index g with
  | Some value => (Some value, mkGenerator (gen_letters g) (S (gen_index g)))
  | None => (None, g)
  end.

(** ** The reveal loop *)

Inductive Completion := Returned | TypeError.

(** Scanning for a whitespace unit is armed for this tick: the value of
    [lookForWhitespaceChar] once the callback has tested [index % 100]. *)
Definition armed (t : Timer) : bool :=
  if decide (index t mod 100 = 0) then true else lookForWhitespaceChar t.

(** The callback handed to [setInterval], run for timer [t].  A reference
    the generator yields always denotes a child of the text box, the
    generator being replaced together with the children; the lookup of
    the reference fails on no run (see [wf_letters] below). *)
Definition callback (t : Timer) (self : TextDisplay) : Completion * TextDisplay :=
  match letters self with
  | None => (TypeError, self)
  | Some g =>
    let '(letter, g') := next g in
    let self := set_letters (Some g') self in
    match letter with
    | None =>
      let self := set_continueButton_textContent label_Done self in
      let self := set_continueButton_hidden false self in
      let self := set_textBox_data_complete true self in
      (Returned, clearInterval (intervalID t) self)
    | Some value =>
      let look := armed t in
      match textBox_children self !! value with
      | None => (TypeError, self)
      | Some span =>
        let self := on_element (classList_add "visible") value self in
        if look && negb (truthy (trim (textContent span))) then
          let self := clearInterval (intervalID t) self in
          match previousElementSibling value with
          | None => (TypeError, self)
          | Some prev =>
            let self := on_element (classList_add "ellipsis-after") prev self in
            match nextElementSibling (textBox_children self) value with
            | None => (TypeError, self)
            | Some nxt =>
              let self := on_element (classList_add "ellipsis-before") nxt self in
              (Returned, set_continueButton_hidden false self)
            end
          end
        else
          (Returned, save_closure (intervalID t) (S (index t)) look self)
      end
    end
  end.

(** [showLetters()]: a new timer whose closure starts with [index = 1] and
    [lookForWhitespaceChar = false]. *)
Definition showLetters (self : TextDisplay) : TextDisplay :=
  setInterval 1 false self.

(** One expiry of the timer [id]; nothing runs when it is not active. *)
Definition tick (id : nat) (self : TextDisplay) : Completion * TextDisplay :=
  match find_timer id self with
  | Some t => callback t self
  | None => (Returned, self)
  end.

(** ** Text assignment *)

(** The children the text box gets for [newValue]:
    [newValue.trim().split('').map(...).join('')] assigned as markup. *)
Definition segment (newValue : JSString) : list Span :=
  char_span <$> split (trim newValue).

Definition attributeChangedCallback
    (name : string) (oldValue newValue : option JSString)
    (self : TextDisplay) : TextDisplay :=
  match newValue with
  | None => self
  | Some newValue =>
    if negb (truthy newValue) then self else
    let self := set_accessibleTextBox_textContent newValue self in
    let self := set_continueButton_textContent label_Continue self in
    let self := set_textBox_hidden false self in
    let self := set_textBox_children (segment newValue) self in
    let self := set_letters
      (Some (letterGenerator (seq 0 (length (textBox_children self))))) self in
    showLetters self
  end.

(** ** The continue button *)

Definition pointerup (self : TextDisplay) : TextDisplay :=
  if textBox_data_complete self then
    let self := set_continueButton_hidden true self in
    let self := set_textBox_hidden true self in
    set_textBox_data_complete false self
  else
    let self := set_textBox_children (hide_visible (textBox_children self)) self in
    let self := set_continueButton_hidden true self in
    showLetters self.

(** ** Runs of the element *)

Inductive Event :=
  | SetText (newValue : option JSString)
  | Tick (id : nat)
  | PointerUp.

Definition step (self : TextDisplay) (e : Event) : TextDisplay :=
  match e with
  | SetText newValue => attributeChangedCallback "text" None newValue self
  | Tick id => snd (tick id self)
  | PointerUp => pointerup self
  end.

(** The state after the events [es], in order, from [self]. *)
Definition run (es : list Event) (self : TextDisplay) : TextDisplay :=
  foldl step self es.

Definition setText (s : string) : Event := SetText (Some (of_string s)).

Definition visible_units (self : TextDisplay) : list Span :=
  filter (λ e, has_class "visible" e = true) (textBox_children self).

(** A text of 101 units: 99 letters, a space, a letter. *)
Definition page_text : JSString :=
  replicate 99 97%N ++ [32%N; 98%N].

Definition is_SetText (e : Event) : bool :=
  match e with SetText _ => true | _ => false end.

(** ** States for the statements below *)

Definition texts (self : TextDisplay) : list JSString :=
  textContent <$> textBox_children self.

(** What holds of the element in every state a run can reach. *)
Record wf (self : TextDisplay) : Prop := mk_wf {
  (** the units are those made of a trimmed text *)
  wf_texts : ∃ s, texts self = textContent <$> segment s;
  (** the generator walks the children of the text box *)
  wf_letters : ∀ g, letters self = Some g →
    gen_letters g = seq 0 (length (textBox_children self));
  (** timer identifiers are distinct and were handed out earlier *)
  wf_ids : Forall (λ t, intervalID t < next_intervalID self) (timers self);
  wf_nodup : NoDup (intervalID <$> timers self);
  (** the running count of a cycle and its scanning flag *)
  wf_count : Forall (λ t, 1 ≤ index t
      ∧ (lookForWhitespaceChar t = true ↔ 100 < index t)) (timers self)
}.

(** A text of 100 units that ends with U+0000, and a text that starts
    with it. *)
Definition nul_last_text : JSString := replicate 99 97%N ++ [0%N].
Definition nul_first_text : JSString := [0%N; 97%N].

(** The run that brings the timer of [nul_last_text] to its hundredth
    tick, and the run that assigns [nul_first_text] while the timer of a
    text of 100 letters stands at count 100. *)
Definition before_break_at_last : list Event :=
  SetText (Some nul_last_text) :: replicate 99 (Tick 0).

Definition before_break_at_first : list Event :=
  SetText (Some (replicate 100 97%N)) :: replicate 99 (Tick 0)
  ++ [SetText (Some nul_first_text)].

(** The text last assigned in a run, if any. *)
Definition assigned_text (es : list Event) : option JSString :=
  foldl (λ acc e, match e with
                  | SetText (Some s) => if truthy s then Some s else acc
                  | _ => acc
                  end) None es.

(** ** Statements about the reveal as a whole *)

(** A text of 205 units whose only whitespace is the 100th unit. *)
Definition two_page_text : JSString :=
  replicate 99 97%N ++ [32%N] ++ replicate 105 98%N.

(** A text of 150 units whose only whitespace is the 120th unit. *)
Definition late_space_text : JSString :=
  replicate 119 97%N ++ [32%N] ++ replicate 30 98%N.

Definition is_PointerUp (e : Event) : bool :=
  match e with PointerUp => true | _ => false end.

(** The generator after [k] calls of [next]. *)
Definition after_nexts (k : nat) (g : Generator) : Generator :=
  Nat.iter k (λ g, snd (next g)) g.

(** The children after a callback: the yielded unit is marked, and on a
    page break the two siblings are decorated as far as they exist. *)
Definition marked (bA bB : bool) (p : nat) (l : list Span) : list Span :=
  alter (if bB then classList_add "ellipsis-before" else id) (S p)
    (alter (if bA then classList_add "ellipsis-after" else id) (pred p)
       (alter (classList_add "visible") p l)).

(** How the marks on the units relate to the position of the generator,
    in every state a run can reach. *)
Record reveal_inv (self : TextDisplay) : Prop := mk_reveal_inv {
  (** without a generator there are no units *)
  ri_none : letters self = None → textBox_children self = [];
  (** the generator never stands beyond the last unit *)
  ri_bound : ∀ g, letters self = Some g →
    gen_index g ≤ length (textBox_children self);
  (** the units of class [visible] are those the generator has yielded *)
  ri_visible : ∀ g i u, letters self = Some g →
    textBox_children self !! i = Some u →
    (has_class "visible" u = true ↔ i < gen_index g);
  (** [hidden] is only set on units of class [visible] *)
  ri_hidden : ∀ i u, textBox_children self !! i = Some u →
    hidden u = true → has_class "visible" u = true;
  (** [ellipsis-after] sits just before a yielded whitespace unit *)
  ri_after : ∀ i u, textBox_children self !! i = Some u →
    has_class "ellipsis-after" u = true →
    ∃ w, textBox_children self !! S i = Some w
      ∧ trim (textContent w) = [] ∧ has_class "visible" w = true;
  (** [ellipsis-before] sits just after a yielded whitespace unit *)
  ri_before : ∀ i u, textBox_children self !! i = Some u →
    has_class "ellipsis-before" u = true →
    ∃ q w, i = S q ∧ textBox_children self !! q = Some w
      ∧ trim (textContent w) = [] ∧ has_class "visible" w = true
}.

(** * Properties *)

(** ** Trimming *)

Section Trim.

Lemma trimStart_split s :
  ∃ l, s = l ++ trimStart s ∧ Forall (λ c, isWhiteSpace c = true) l.
Proof.
  induction s as [|c s [l [Hs Hl]]]; simpl.
  - by exists [].
  - destruct (isWhiteSpace c) eqn:Hc.
    + exists (c :: l). split; [simpl; by f_equal | by constructor].
    + by exists [].
Qed.

Lemma trimStart_head s c :
  head (trimStart s) = Some c → isWhiteSpace c = false.
Proof.
  induction s as [|a s IH]; simpl; [done|].
  destruct (isWhiteSpace a) eqn:Ha; [done|].
  simpl. by intros [= <-].
Qed.

Lemma trimStart_snoc l c :
  isWhiteSpace c = false → trimStart (l ++ [c]) = trimStart l ++ [c].
Proof.
  intros Hc. induction l as [|a l IH]; simpl.
  - by rewrite Hc.
  - by destruct (isWhiteSpace a).
Qed.

Lemma trimEnd_split s :
  ∃ r, s = trimEnd s ++ r ∧ Forall (λ c, isWhiteSpace c = true) r.
Proof.
  destruct (trimStart_split (reverse s)) as [l [Hs Hl]].
  exists (reverse l). split.
  - unfold trimEnd. rewrite <- reverse_app, <- Hs.
    by rewrite reverse_involutive.
  - by apply Forall_reverse.
Qed.

Lemma trimEnd_last s c :
  last (trimEnd s) = Some c → isWhiteSpace c = false.
Proof.
  unfold trimEnd. rewrite last_reverse. apply trimStart_head.
Qed.

Lemma trimEnd_head s c :
  head s = Some c → isWhiteSpace c = false → head (trimEnd s) = Some c.
Proof.
  destruct s as [|a s]; [done|]. simpl. intros [= ->] Hc.
  unfold trimEnd. rewrite reverse_cons, trimStart_snoc by done.
  by rewrite reverse_snoc.
Qed.

Lemma trim_head s c : head (trim s) = Some c → isWhiteSpace c = false.
Proof.
  unfold trim. destruct (head (trimStart s)) as [a|] eqn:Ha.
  - pose proof (trimStart_head _ _ Ha) as Hws.
    rewrite (trimEnd_head _ _ Ha Hws). by intros [= <-].
  - apply head_None in Ha. rewrite Ha. by vm_compute.
Qed.

Lemma trim_last s c : last (trim s) = Some c → isWhiteSpace c = false.
Proof. apply trimEnd_last. Qed.

Lemma trim_split s :
  ∃ l r, s = l ++ trim s ++ r
    ∧ Forall (λ c, isWhiteSpace c = true) l
    ∧ Forall (λ c, isWhiteSpace c = true) r.
Proof.
  destruct (trimStart_split s) as [l [Hs Hl]].
  destruct (trimEnd_split (trimStart s)) as [r [Hs' Hr]].
  exists l, r. split; [|done]. unfold trim. by rewrite <- Hs'.
Qed.

(** A one-unit text trims to nothing exactly when the unit is
    whitespace. *)
Lemma trim_unit c : trim [c] = [] ↔ isWhiteSpace c = true.
Proof.
  unfold trim, trimEnd. simpl.
  destruct (isWhiteSpace c) eqn:Hc; [done|].
  rewrite reverse_singleton. simpl. rewrite Hc. by vm_compute.
Qed.

Lemma char_span_text c : textContent (char_span [c]) = parsed c.
Proof. unfold char_span. simpl. apply app_nil_r. Qed.

(** The unit made of a code unit is whitespace-only exactly for a
    whitespace code unit and for U+0000. *)
Lemma parsed_blank c :
  trim (parsed c) = [] ↔ isWhiteSpace c = true ∨ c = 0%N.
Proof.
  unfold parsed. destruct (N.eqb_spec c 0) as [->|H0]; [by split; auto|].
  destruct (N.eqb_spec c 13) as [->|H13].
  - split; [by left | by vm_compute].
  - rewrite trim_unit. split; [by left | by intros [?|?]].
Qed.

Lemma parsed_nonempty c : parsed c ≠ [] ↔ c ≠ 0%N.
Proof.
  unfold parsed. destruct (N.eqb_spec c 0) as [->|H0]; [done|].
  by destruct (c =? 13)%N.
Qed.

End Trim.

(** ** Invariants of the runs *)

Section Invariants.

Lemma texts_alter_class cls i (l : list Span) :
  textContent <$> alter (classList_add cls) i l = textContent <$> l.
Proof.
  rewrite (list_fmap_alter _ (classList_add cls) id)
    by (by apply Forall_true).
  by apply list_alter_id.
Qed.

Lemma texts_hide_visible (l : list Span) :
  textContent <$> hide_visible l = textContent <$> l.
Proof.
  unfold hide_visible. rewrite <- list_fmap_compose.
  apply list_fmap_ext. intros i x _. simpl. by destruct (has_class _ x).
Qed.

Lemma length_hide_visible (l : list Span) :
  length (hide_visible l) = length l.
Proof. apply length_fmap. Qed.

Lemma find_timer_Some id self t :
  find_timer id self = Some t → t ∈ timers self ∧ intervalID t = id.
Proof.
  unfold find_timer. intros Hf. apply fmap_Some in Hf as [[i t'] [Hf ->]].
  apply list_find_Some in Hf as (Hl & Hid & _). simpl.
  split; [by eapply list_elem_of_lookup_2 | done].
Qed.

Lemma callback_texts t self :
  texts (snd (callback t self)) = texts self.
Proof.
  unfold callback, texts.
  repeat case_match; simpl; rewrite ?texts_alter_class; done.
Qed.

Lemma callback_length t self :
  length (textBox_children (snd (callback t self)))
  = length (textBox_children self).
Proof.
  rewrite <- !(length_fmap textContent). apply (f_equal length).
  apply callback_texts.
Qed.

Lemma callback_letters t self g' :
  letters (snd (callback t self)) = Some g' →
  ∃ g, letters self = Some g ∧ gen_letters g' = gen_letters g.
Proof.
  unfold callback, next.
  repeat case_match; simplify_eq/=; intros; simplify_eq/=; eauto.
Qed.

Lemma Forall_filter_keep {A} (P Q : A → Prop) `{!∀ x, Decision (Q x)} l :
  Forall P l → Forall P (filter Q l).
Proof.
  rewrite !Forall_forall. intros HP x [_ Hx]%list_elem_of_filter. auto.
Qed.

Lemma ids_save id index' look' (l : list Timer) :
  intervalID <$> ((λ t, if decide (intervalID t = id)
                        then mkTimer id index' look' else t) <$> l)
  = intervalID <$> l.
Proof.
  rewrite <- list_fmap_compose. apply list_fmap_ext.
  intros i t _. simpl. by case_decide.
Qed.

Lemma callback_timers t self :
  let self' := snd (callback t self) in
  next_intervalID self' = next_intervalID self
  ∧ (timers self' = timers self
     ∨ timers self' = filter (λ t', intervalID t' ≠ intervalID t) (timers self)
     ∨ timers self' =
         (λ t', if decide (intervalID t' = intervalID t)
                then mkTimer (intervalID t) (S (index t)) (armed t)
                else t') <$> timers self).
Proof.
  unfold callback. repeat case_match; simpl; eauto.
Qed.

(** The count invariant passes from one tick to the next. *)
Lemma count_next t :
  1 ≤ index t ∧ (lookForWhitespaceChar t = true ↔ 100 < index t) →
  1 ≤ S (index t) ∧ (armed t = true ↔ 100 < S (index t)).
Proof.
  intros [H1 H2]. split; [lia|]. unfold armed. case_decide as Hm.
  - split; [|done]. intros _.
    apply Nat.Div0.mod_divides in Hm as [k Hk]. lia.
  - rewrite H2. split; [lia|]. intros Hlt.
    destruct (decide (index t = 100)) as [He|]; [|lia].
    rewrite He in Hm. by vm_compute in Hm.
Qed.

Lemma armed_iff t :
  1 ≤ index t ∧ (lookForWhitespaceChar t = true ↔ 100 < index t) →
  armed t = true ↔ 100 ≤ index t.
Proof. intros H. apply count_next in H as [_ ->]. lia. Qed.

Lemma wf_constructor : wf constructor.
Proof.
  split; simpl; try done; try by constructor.
  by exists [].
Qed.

Lemma wf_showLetters self : wf self → wf (showLetters self).
Proof.
  intros [Ht Hl Hi Hn Hc]. unfold showLetters, setInterval.
  split; simpl; try done.
  - apply Forall_app. split.
    + eapply Forall_impl; [exact Hi|]. simpl. intros t Hlt. lia.
    + apply Forall_singleton. simpl. lia.
  - rewrite fmap_app. apply NoDup_app. split_and!; [done| |].
    + intros id [t [-> Ht']]%list_elem_of_fmap.
      rewrite Forall_forall in Hi. apply Hi in Ht'.
      simpl. rewrite list_elem_of_singleton. lia.
    + simpl. apply NoDup_singleton.
  - apply Forall_app. split; [done|].
    apply Forall_singleton. simpl. split; [lia|]. split; [done|lia].
Qed.

End Invariants.

(** Every handler keeps the invariant. *)
Section Preservation.

Context (self : TextDisplay) (Hwf : wf self).

Lemma wf_attributeChangedCallback name oldValue newValue :
  wf (attributeChangedCallback name oldValue newValue self).
Proof.
  unfold attributeChangedCallback.
  destruct newValue as [s|]; [|done].
  destruct (truthy s); simpl; [|done].
  apply wf_showLetters. destruct Hwf as [Ht Hl Hi Hn Hc].
  split; simpl; try done.
  - by exists s.
  - by intros g [= <-].
Qed.

Lemma wf_pointerup : wf (pointerup self).
Proof.
  unfold pointerup.
  destruct (textBox_data_complete self).
  - by destruct Hwf.
  - apply wf_showLetters. destruct Hwf as [Ht Hl Hi Hn Hc].
    split; simpl; try done.
    + destruct Ht as [s Hs]. exists s. rewrite <- Hs.
      apply texts_hide_visible.
    + intros g Hg. rewrite length_hide_visible. auto.
Qed.

Lemma wf_tick id : wf (snd (tick id self)).
Proof.
  unfold tick.
  destruct (find_timer id self) as [t|] eqn:Hf; [|done].
  apply find_timer_Some in Hf as [Hin Hid].
  destruct (callback_timers t self) as [Hnext Htimers].
  destruct Hwf as [Ht Hl Hi Hn Hc]. split.
  - by rewrite callback_texts.
  - intros g' Hg'. rewrite callback_length.
    apply callback_letters in Hg' as [g [Hg ->]]. auto.
  - rewrite Hnext.
    destruct Htimers as [-> | [-> | ->]]; [done| |].
    + by apply Forall_filter_keep.
    + apply Forall_fmap. eapply Forall_impl; [exact Hi|].
      intros t'. simpl. case_decide; simpl; lia.
  - destruct Htimers as [-> | [-> | ->]]; [done| |].
    + eapply sublist_NoDup; [exact Hn|].
      apply fmap_sublist, sublist_filter.
    + by rewrite ids_save.
  - rewrite Forall_forall in Hc. pose proof (Hc _ Hin) as Hct.
    apply count_next in Hct. rewrite <- Forall_forall in Hc.
    destruct Htimers as [-> | [-> | ->]]; [done| |].
    + by apply Forall_filter_keep.
    + apply Forall_fmap. eapply Forall_impl; [exact Hc|].
      intros t'. simpl. by case_decide.
Qed.

Lemma wf_step e : wf (step self e).
Proof.
  destruct e; simpl;
    auto using wf_attributeChangedCallback, wf_tick, wf_pointerup.
Qed.

(** A unit that holds whitespace, and so is not empty, is neither the
    first nor the last unit: the text was trimmed. *)
Lemma whitespace_unit_inner p u :
  textBox_children self !! p = Some u →
  trim (textContent u) = [] →
  textContent u ≠ [] →
  0 < p ∧ S p < length (textBox_children self).
Proof.
  destruct Hwf as [[s Hs] _ _ _ _]. intros Hu Hws Hne.
  assert (texts self !! p = Some (textContent u)) as Hp.
  { unfold texts. by rewrite list_lookup_fmap, Hu. }
  rewrite Hs in Hp. unfold segment, split in Hp.
  rewrite <- !list_fmap_compose in Hp.
  apply list_lookup_fmap_Some in Hp as [c [Hc Hp]].
  change (textContent u = textContent (char_span [c])) in Hc.
  rewrite char_span_text in Hc. rewrite Hc in Hws, Hne.
  apply parsed_blank in Hws as [Hws | ->]; [|done].
  assert (length (textBox_children self) = length (trim s)) as Hlen.
  { rewrite <- (length_fmap textContent). fold (texts self).
    rewrite Hs. unfold segment, split. by rewrite !length_fmap. }
  pose proof (lookup_lt_Some _ _ _ Hp) as Hlt.
  rewrite Hlen. split.
  - destruct p as [|p]; [|lia].
    rewrite <- head_lookup in Hp. apply trim_head in Hp. congruence.
  - destruct (decide (S p = length (trim s))) as [He|]; [|lia].
    assert (last (trim s) = Some c) as Hl.
    { rewrite last_lookup, <- He. done. }
    apply trim_last in Hl. congruence.
Qed.

End Preservation.

Lemma wf_run_from es : ∀ self, wf self → wf (run es self).
Proof.
  unfold run. induction es as [|e es IH]; simpl; [done|].
  intros self Hwf. by apply IH, wf_step.
Qed.

Lemma wf_run es : wf (run es constructor).
Proof. apply wf_run_from, wf_constructor. Qed.

(** ** Segmentation *)

(** C4: for every input string, segmentation trims leading and trailing
    whitespace (the input is a whitespace prefix, the trimmed text and a
    whitespace suffix, and the trimmed text neither starts nor ends with
    whitespace) and produces exactly one unit per remaining character, in
    order.  The unit of a character holds that character as its text (a
    carriage return as a line feed, and U+0000 as no text, which is what
    the markup parser makes of them), so every internal whitespace
    character is an ordinary unit whose text is whitespace.  Every unit is
    of class [char] only, hence not visible, and not hidden.  The sequence
    is empty exactly when the trimmed input is empty, and a text
    assignment installs it as the children of the text box. *)
Theorem C4_segment (s : JSString) :
  (∃ l r, s = l ++ trim s ++ r
     ∧ Forall (λ c, isWhiteSpace c = true) l
     ∧ Forall (λ c, isWhiteSpace c = true) r)
  ∧ (∀ c, head (trim s) = Some c → isWhiteSpace c = false)
  ∧ (∀ c, last (trim s) = Some c → isWhiteSpace c = false)
  ∧ length (segment s) = length (trim s)
  ∧ (∀ i c, trim s !! i = Some c →
       ∃ u, segment s !! i = Some u
         ∧ (c ≠ 0%N → c ≠ 13%N → textContent u = [c])
         ∧ (c = 13%N → textContent u = [10%N])
         ∧ (c = 0%N → textContent u = [])
         ∧ (isWhiteSpace c = true →
              textContent u ≠ [] ∧ trim (textContent u) = [])
         ∧ classList u = {["char"]}
         ∧ has_class "visible" u = false
         ∧ hidden u = false)
  ∧ (segment s = [] ↔ trim s = [])
  ∧ (∀ name oldValue self, s ≠ [] →
       textBox_children
         (attributeChangedCallback name oldValue (Some s) self) = segment s).
Proof.
  split_and!.
  - apply trim_split.
  - apply trim_head.
  - apply trim_last.
  - unfold segment, split. by rewrite !length_fmap.
  - intros i c Hc. exists (char_span [c]). split_and!; try done.
    + unfold segment, split. by rewrite !list_lookup_fmap, Hc.
    + intros H0 H13. rewrite char_span_text. unfold parsed.
      by rewrite (proj2 (N.eqb_neq _ _) H0), (proj2 (N.eqb_neq _ _) H13).
    + by intros ->.
    + by intros ->.
    + intros Hws. rewrite char_span_text. split.
      * apply parsed_nonempty. by intros ->.
      * apply parsed_blank. by left.
  - unfold segment, split. split.
    + intros H. by repeat apply fmap_nil_inv in H.
    + by intros ->.
  - intros name oldValue self Hs. unfold attributeChangedCallback.
    destruct s; [done|]. done.
Qed.

(** ** Text assignment *)

(** C8: an absent ([null]) or empty text assignment returns without
    touching the element: the state is the same, so no unit becomes
    visible, no timer is started and a hidden display stays hidden; from
    the element as constructed, nothing is visible, no timer is active and
    the text box is hidden. *)
Theorem C8_falsy_text_is_noop name oldValue self :
  attributeChangedCallback name oldValue None self = self
  ∧ attributeChangedCallback name oldValue (Some []) self = self
  ∧ (let st := run [SetText (Some [])] constructor in
     visible_units st = [] ∧ timers st = [] ∧ textBox_hidden st = true
     ∧ letters st = None).
Proof. done. Qed.

Lemma callback_accessible t self :
  accessibleTextBox_textContent (snd (callback t self))
    = accessibleTextBox_textContent self
  ∧ accessibleTextBox_writes (snd (callback t self))
    = accessibleTextBox_writes self.
Proof. unfold callback. by repeat case_match. Qed.

Lemma step_accessible self e :
  is_SetText e = false →
  accessibleTextBox_textContent (step self e)
    = accessibleTextBox_textContent self
  ∧ accessibleTextBox_writes (step self e) = accessibleTextBox_writes self.
Proof.
  destruct e as [v|id|]; simpl; [done| |].
  - intros _. unfold tick. destruct (find_timer id self); [|done].
    apply callback_accessible.
  - intros _. unfold pointerup. by destruct (textBox_data_complete self).
Qed.

Lemma run_accessible es : ∀ self,
  forallb (λ e, negb (is_SetText e)) es = true →
  accessibleTextBox_textContent (run es self)
    = accessibleTextBox_textContent self
  ∧ accessibleTextBox_writes (run es self) = accessibleTextBox_writes self.
Proof.
  unfold run. induction es as [|e es IH]; simpl; [done|].
  intros self [He Hes]%andb_prop. apply negb_true_iff in He.
  destruct (step_accessible self e He) as [<- <-]. by apply IH.
Qed.

(** C3 (as the code has it): a text assignment with a non-empty string
    writes the accessible text once, at assignment time, with the input as
    given, not trimmed; ticks and button actions that follow never write
    it, so its content stays the whole input whatever the progress of the
    reveal. *)
Theorem C3_accessible_text name oldValue (s : JSString) self es :
  s ≠ [] →
  forallb (λ e, negb (is_SetText e)) es = true →
  let st := attributeChangedCallback name oldValue (Some s) self in
  accessibleTextBox_textContent st = s
  ∧ accessibleTextBox_writes st = S (accessibleTextBox_writes self)
  ∧ accessibleTextBox_textContent (run es st) = s
  ∧ accessibleTextBox_writes (run es st) = S (accessibleTextBox_writes self).
Proof.
  intros Hs Hes st.
  assert (accessibleTextBox_textContent st = s
          ∧ accessibleTextBox_writes st = S (accessibleTextBox_writes self))
    as [H1 H2].
  { subst st. unfold attributeChangedCallback. by destruct s. }
  destruct (run_accessible es st Hes) as [-> ->]. done.
Qed.

(** The theorem at a text with spaces at both ends, followed by ticks and
    a button action. *)
Lemma C3_accessible_text_witness :
  let s := of_string "  hello world " in
  let st := attributeChangedCallback "text" None (Some s) constructor in
  let es := replicate 5 (Tick 0) ++ [PointerUp; Tick 1] in
  accessibleTextBox_textContent st = s
  ∧ accessibleTextBox_writes st = 1
  ∧ accessibleTextBox_textContent (run es st) = s
  ∧ accessibleTextBox_writes (run es st) = 1.
Proof.
  apply (C3_accessible_text "text" None (of_string "  hello world ")
           constructor (replicate 5 (Tick 0) ++ [PointerUp; Tick 1])).
  - vm_compute. discriminate.
  - vm_compute. reflexivity.
Defined.

(** C3 as stated fails: for an input with a leading space the accessible
    text keeps the space, while the trimmed input has none. *)
Lemma C3_counterexample :
  let s := of_string " a" in
  let st := attributeChangedCallback "text" None (Some s) constructor in
  accessibleTextBox_textContent st = of_string " a"
  ∧ trim s = of_string "a"
  ∧ accessibleTextBox_textContent st ≠ trim s.
Proof. split_and!; [reflexivity | reflexivity | vm_compute; discriminate]. Qed.

(** ** The continue button *)

(** C9: the action dismisses exactly when the completion marker is set.
    With the marker set it hides the button and the text box and clears
    the marker, starting no timer and touching no unit.  Without it the
    marker stays unset and the text box keeps its [hidden] state; every
    unit of class [visible] gets its [hidden] attribute set, every other
    unit keeps the one it had, no unit changes its text or its classes,
    the button is hidden, and a new reveal cycle starts on the same
    generator, whose position is not reset. *)
Theorem C9_pointerup self :
  let st := pointerup self in
  (textBox_data_complete self = true →
     textBox_hidden st = true
     ∧ textBox_data_complete st = false
     ∧ continueButton_hidden st = true
     ∧ textBox_children st = textBox_children self
     ∧ letters st = letters self
     ∧ timers st = timers self)
  ∧ (textBox_data_complete self = false →
     textBox_data_complete st = false
     ∧ textBox_hidden st = textBox_hidden self
     ∧ length (textBox_children st) = length (textBox_children self)
     ∧ (∀ i u, textBox_children self !! i = Some u →
          ∃ u', textBox_children st !! i = Some u'
            ∧ textContent u' = textContent u
            ∧ classList u' = classList u
            ∧ (has_class "visible" u = true → hidden u' = true)
            ∧ (has_class "visible" u = false → hidden u' = hidden u))
     ∧ continueButton_hidden st = true
     ∧ letters st = letters self
     ∧ timers st = timers self ++ [mkTimer (next_intervalID self) 1 false]).
Proof.
  unfold pointerup. split; intros H; rewrite H; simpl; split_and!; try done.
  - apply length_hide_visible.
  - intros i u Hu. unfold hide_visible. rewrite list_lookup_fmap, Hu. simpl.
    destruct (has_class "visible" u) eqn:Hv; eexists; by split_and!.
Qed.

(** ** The scenario of a three-letter text *)

(** C7 (as the code has it): for the input "abc" three ticks reveal the
    three units and leave the completion marker unset and the label
    unchanged; the fourth tick finds the generator done, and after exactly
    four ticks the marker is set, the label is "Done", the button is shown,
    three units are visible, the timer is stopped and the accessible text
    is "abc". *)
Theorem C7_abc_completes_on_fourth_tick :
  let after k := run (setText "abc" :: replicate k (Tick 0)) constructor in
  (length (visible_units (after 3)) = 3
   ∧ textBox_data_complete (after 3) = false
   ∧ continueButton_textContent (after 3) = label_Continue
   ∧ length (timers (after 3)) = 1)
  ∧ textBox_data_complete (after 4) = true
  ∧ continueButton_textContent (after 4) = label_Done
  ∧ continueButton_hidden (after 4) = false
  ∧ length (visible_units (after 4)) = 3
  ∧ length (textBox_children (after 4)) = 3
  ∧ timers (after 4) = []
  ∧ accessibleTextBox_textContent (after 4) = of_string "abc".
Proof. intros after. subst after. split_and!; by vm_compute. Qed.

(** C7 as stated fails: after exactly three ticks the marker is not set
    and the label is not "Done". *)
Lemma C7_counterexample :
  let st := run (setText "abc" :: replicate 3 (Tick 0)) constructor in
  length (visible_units st) = 3
  ∧ textBox_data_complete st = false
  ∧ continueButton_textContent st ≠ label_Done.
Proof.
  split_and!; [by vm_compute | by vm_compute | vm_compute; discriminate].
Qed.

(** ** Timers and the running count *)

Section Timers.

Lemma find_fresh id index0 look0 (l : list Timer) :
  Forall (λ t, intervalID t < id) l →
  snd <$> list_find (λ t, intervalID t = id) (l ++ [mkTimer id index0 look0])
  = Some (mkTimer id index0 look0).
Proof.
  induction 1 as [|t l Ht _ IH]; simpl.
  - by rewrite decide_True.
  - rewrite decide_False by lia.
    rewrite <- option_fmap_compose. simpl in *.
    by rewrite <- IH.
Qed.

Lemma find_save id index' look' (l : list Timer) t :
  snd <$> list_find (λ t, intervalID t = id) l = Some t →
  snd <$> list_find (λ t, intervalID t = id)
            ((λ t, if decide (intervalID t = id)
                   then mkTimer id index' look' else t) <$> l)
  = Some (mkTimer id index' look').
Proof.
  induction l as [|a l IH]; simpl; [done|].
  destruct (decide (intervalID a = id)) as [Ha|Ha]; simpl.
  - by rewrite decide_True.
  - rewrite decide_False by done.
    rewrite <- !option_fmap_compose. simpl. apply IH.
Qed.

Lemma find_cleared id (l : list Timer) :
  snd <$> list_find (λ t, intervalID t = id)
            (filter (λ t, intervalID t ≠ id) l) = None.
Proof.
  apply fmap_None, list_find_None, Forall_forall.
  by intros t [Ht _]%list_elem_of_filter.
Qed.

(** A callback that returns either cleared its timer or saved the
    advanced count and the flag of this tick. *)
Lemma callback_Returned t self st' :
  callback t self = (Returned, st') →
  timers st' = filter (λ t', intervalID t' ≠ intervalID t) (timers self)
  ∨ timers st' =
      (λ t', if decide (intervalID t' = intervalID t)
             then mkTimer (intervalID t) (S (index t)) (armed t)
             else t') <$> timers self.
Proof.
  unfold callback. repeat case_match; intros; simplify_eq/=; eauto.
Qed.

Lemma elem_of_save id index' look' (l : list Timer) t' :
  intervalID t' ≠ id →
  t' ∈ (λ t, if decide (intervalID t = id)
             then mkTimer id index' look' else t) <$> l
  ↔ t' ∈ l.
Proof.
  intros Hne. rewrite list_elem_of_fmap. split.
  - intros [x [-> Hx]]. by case_decide; simpl in *.
  - intros Ht'. exists t'. by rewrite decide_False.
Qed.

End Timers.

(** C2 (as the code has it): timer identifiers are distinct; a text
    assignment and a continue action each add one timer, with a fresh
    identifier, to the timers already active and cancel none; a dismiss
    action leaves the timers as they are; the tick of one timer leaves
    every other timer active and unchanged.  A timer is only ever
    cancelled by its own tick. *)
Theorem C2_timers_accumulate es :
  let st := run es constructor in
  NoDup (intervalID <$> timers st)
  ∧ (∀ t, t ∈ timers st → intervalID t ≠ next_intervalID st)
  ∧ (∀ name oldValue (s : JSString), s ≠ [] →
       timers (attributeChangedCallback name oldValue (Some s) st)
       = timers st ++ [mkTimer (next_intervalID st) 1 false])
  ∧ (textBox_data_complete st = false →
       timers (pointerup st)
       = timers st ++ [mkTimer (next_intervalID st) 1 false])
  ∧ (textBox_data_complete st = true → timers (pointerup st) = timers st)
  ∧ (∀ id t', intervalID t' ≠ id →
       t' ∈ timers (snd (tick id st)) ↔ t' ∈ timers st).
Proof.
  intros st. pose proof (wf_run es) as Hwf. fold st in Hwf.
  split_and!.
  - apply Hwf.
  - intros t Ht. pose proof (wf_ids _ Hwf) as Hi.
    rewrite Forall_forall in Hi. apply Hi in Ht. lia.
  - intros name oldValue s Hs. unfold attributeChangedCallback.
    by destruct s.
  - unfold pointerup. by intros ->.
  - unfold pointerup. by intros ->.
  - intros id t' Hne. unfold tick.
    destruct (find_timer id st) as [t|] eqn:Hf; [|done].
    apply find_timer_Some in Hf as [_ <-].
    destruct (callback_timers t st) as [_ [-> | [-> | ->]]]; [done| |].
    + rewrite list_elem_of_filter. tauto.
    + by apply elem_of_save.
Qed.

(** C2 as stated fails: two text assignments in a row leave two timers
    active, and both tick on the same generator. *)
Lemma C2_counterexample :
  let st := run [setText "ab"; setText "cd"] constructor in
  timers st = [mkTimer 0 1 false; mkTimer 1 1 false]
  ∧ ¬ length (timers st) ≤ 1
  ∧ letters (run [Tick 0; Tick 1] st) = Some (mkGenerator [0; 1] 2)
  ∧ length (visible_units (run [Tick 0; Tick 1] st)) = 2.
Proof.
  split_and!; [by vm_compute | vm_compute; lia | by vm_compute..].
Qed.

(** C6: a reveal cycle starts with running count 1 and scanning off,
    whether a text assignment or a continue action starts it; in every
    state reached, the count of an active cycle is at least 1, scanning is
    switched on by a tick exactly when the count at that tick is a multiple
    of 100, which makes it armed from count 100 on, and a tick that returns
    and keeps its timer has advanced the count by one and kept the flag of
    that tick. *)
Theorem C6_running_count es :
  let st := run es constructor in
  (∀ name oldValue (s : JSString), s ≠ [] →
     find_timer (next_intervalID st)
       (attributeChangedCallback name oldValue (Some s) st)
     = Some (mkTimer (next_intervalID st) 1 false))
  ∧ (textBox_data_complete st = false →
     find_timer (next_intervalID st) (pointerup st)
     = Some (mkTimer (next_intervalID st) 1 false))
  ∧ (∀ id t, find_timer id st = Some t →
       1 ≤ index t
       ∧ (lookForWhitespaceChar t = false →
            (armed t = true ↔ index t mod 100 = 0))
       ∧ (armed t = true ↔ 100 ≤ index t)
       ∧ (∀ t', fst (tick id st) = Returned →
            find_timer id (snd (tick id st)) = Some t' →
            index t' = S (index t) ∧ lookForWhitespaceChar t' = armed t)).
Proof.
  intros st. pose proof (wf_run es) as Hwf. fold st in Hwf.
  pose proof (wf_ids _ Hwf) as Hi. split_and!.
  - intros name oldValue s Hs. unfold attributeChangedCallback.
    destruct s; [done|]. simpl. by apply find_fresh.
  - unfold pointerup. intros ->. by apply find_fresh.
  - intros id t Hf. pose proof Hf as Hfind.
    apply find_timer_Some in Hf as [Hin Hid].
    pose proof (wf_count _ Hwf) as Hc. rewrite Forall_forall in Hc.
    specialize (Hc _ Hin). split_and!.
    + apply Hc.
    + intros Hoff. unfold armed. case_decide; [done|].
      rewrite Hoff. split; [done|lia].
    + by apply armed_iff.
    + intros t'. unfold tick. rewrite Hfind.
      destruct (callback t st) as [c st'] eqn:Hcb. simpl.
      intros ->. apply callback_Returned in Hcb. unfold find_timer.
      destruct Hcb as [-> | ->].
      * rewrite Hid, find_cleared. done.
      * rewrite Hid, (find_save id _ _ _ t) by exact Hfind.
        by intros [= <-].
Qed.

(** ** The marks a callback leaves *)

Section MarkedUnits.

Lemma has_class_add c c' u :
  has_class c (classList_add c' u) = bool_decide (c = c') || has_class c u.
Proof.
  unfold has_class, classList_add. simpl.
  rewrite <- bool_decide_or. apply bool_decide_ext. set_solver.
Qed.

Lemma has_class_char_span c cs :
  has_class c (char_span cs) = bool_decide (c = "char").
Proof.
  unfold has_class, char_span. simpl. apply bool_decide_ext. set_solver.
Qed.

Lemma marked_none p (l : list Span) :
  marked false false p l = alter (classList_add "visible") p l.
Proof. unfold marked. by rewrite !list_alter_id by done. Qed.

Lemma marked_after p (l : list Span) :
  marked true false p l
  = alter (classList_add "ellipsis-after") (pred p)
      (alter (classList_add "visible") p l).
Proof. unfold marked. by rewrite list_alter_id by done. Qed.

Lemma length_marked bA bB p (l : list Span) :
  length (marked bA bB p l) = length l.
Proof. unfold marked. by rewrite !length_alter. Qed.

(** The unit at a position of the marked children. *)
Lemma marked_lookup bA bB p (l : list Span) x u' :
  marked bA bB p l !! x = Some u' →
  ∃ u, l !! x = Some u
    ∧ textContent u' = textContent u
    ∧ hidden u' = hidden u
    ∧ has_class "visible" u' = bool_decide (x = p) || has_class "visible" u
    ∧ has_class "ellipsis-after" u'
      = bA && bool_decide (x = pred p) || has_class "ellipsis-after" u
    ∧ has_class "ellipsis-before" u'
      = bB && bool_decide (x = S p) || has_class "ellipsis-before" u.
Proof.
  unfold marked. destruct p as [|q]; simpl; rewrite !list_lookup_alter.
  all: destruct (l !! x) as [u|] eqn:Hx.
  - intros Hu'. exists u. split; [done|].
    destruct bA, bB; repeat case_decide; try (exfalso; lia); subst;
      rewrite ?Hx in Hu'; simpl in Hu'; simplify_eq/=;
      unfold id; rewrite ?has_class_add; simpl;
      rewrite ?bool_decide_eq_true_2, ?bool_decide_eq_false_2 by (done || lia);
      split_and!; try done.
  - repeat case_decide; try (exfalso; lia); subst; rewrite ?Hx; simpl; done.
  - intros Hu'. exists u. split; [done|].
    destruct bA, bB; repeat case_decide; try (exfalso; lia); subst;
      rewrite ?Hx in Hu'; simpl in Hu'; simplify_eq/=;
      unfold id; rewrite ?has_class_add; simpl;
      rewrite ?bool_decide_eq_true_2, ?bool_decide_eq_false_2 by (done || lia);
      split_and!; try done.
  - repeat case_decide; try (exfalso; lia); subst; rewrite ?Hx; simpl; done.
Qed.

Lemma marked_lookup_fwd bA bB p (l : list Span) x u :
  l !! x = Some u →
  ∃ u', marked bA bB p l !! x = Some u'
    ∧ textContent u' = textContent u
    ∧ hidden u' = hidden u
    ∧ has_class "visible" u' = bool_decide (x = p) || has_class "visible" u
    ∧ has_class "ellipsis-after" u'
      = bA && bool_decide (x = pred p) || has_class "ellipsis-after" u
    ∧ has_class "ellipsis-before" u'
      = bB && bool_decide (x = S p) || has_class "ellipsis-before" u.
Proof.
  intros Hx. pose proof (lookup_lt_Some _ _ _ Hx) as Hlt.
  rewrite <- (length_marked bA bB p) in Hlt.
  destruct (lookup_lt_is_Some_2 _ _ Hlt) as [u' Hu'].
  exists u'. split; [done|].
  apply marked_lookup in Hu' as (u0 & Hu0 & H). by simplify_eq.
Qed.

End MarkedUnits.

(** ** Page breaks *)

Section PageBreak.

Lemma next_Some g p :
  fst (next g) = Some p ↔ gen_letters g !! gen_index g = Some p.
Proof. unfold next. by destruct (gen_letters g !! gen_index g). Qed.

(** The callback on a tick that resolves a page break: the unit is
    marked, the timer cleared, and the two siblings are looked up in
    turn. *)
Lemma callback_break t self g p u :
  letters self = Some g →
  fst (next g) = Some p →
  textBox_children self !! p = Some u →
  armed t = true →
  trim (textContent u) = [] →
  callback t self =
    let self1 :=
      clearInterval (intervalID t)
        (on_element (classList_add "visible") p
           (set_letters (Some (mkGenerator (gen_letters g) (S (gen_index g))))
              self)) in
    match previousElementSibling p with
    | None => (TypeError, self1)
    | Some prev =>
      let self2 := on_element (classList_add "ellipsis-after") prev self1 in
      match nextElementSibling (textBox_children self2) p with
      | None => (TypeError, self2)
      | Some nxt =>
        (Returned,
         set_continueButton_hidden false
           (on_element (classList_add "ellipsis-before") nxt self2))
      end
    end.
Proof.
  intros Hg Hp%next_Some Hu Ha Hws. unfold callback, next.
  rewrite Hg, Hp. simpl. rewrite Hu, Ha, Hws. simpl. done.
Qed.

(** A tick that resolves a page break: the unit is marked, the timer is
    cleared, and the siblings are decorated in turn; the tick fails at the
    first sibling that does not exist. *)
Lemma tick_break id t self g p u :
  find_timer id self = Some t →
  armed t = true →
  letters self = Some g →
  fst (next g) = Some p →
  textBox_children self !! p = Some u →
  trim (textContent u) = [] →
  ∃ bA bB,
    textBox_children (snd (tick id self))
      = marked bA bB p (textBox_children self)
    ∧ (bA = true ↔ 0 < p)
    ∧ (bB = true ↔ 0 < p ∧ S p < length (textBox_children self))
    ∧ fst (tick id self) = (if bB then Returned else TypeError)
    ∧ continueButton_hidden (snd (tick id self))
      = (if bB then false else continueButton_hidden self)
    ∧ letters (snd (tick id self))
      = Some (mkGenerator (gen_letters g) (S (gen_index g)))
    ∧ timers (snd (tick id self))
      = filter (λ t', intervalID t' ≠ id) (timers self)
    ∧ textBox_data_complete (snd (tick id self)) = textBox_data_complete self
    ∧ continueButton_textContent (snd (tick id self))
      = continueButton_textContent self.
Proof.
  intros Hf Ha Hg Hp Hu Hws. pose proof Hf as [_ Hid]%find_timer_Some.
  unfold tick. rewrite Hf, (callback_break t self g p u) by done.
  rewrite Hid. destruct p as [|q]; simpl.
  - exists false, false. rewrite marked_none.
    split_and!; try done; split; (done || lia).
  - unfold nextElementSibling. simpl. rewrite !length_alter.
    case_decide.
    + exists true, true. split_and!; try done; split; (done || lia).
    + exists true, false. rewrite marked_after.
      split_and!; try done; split; (done || lia).
Qed.

End PageBreak.

(** C1 (as the code has it): in every state a run reaches, when scanning
    is armed for a timer and the unit its generator yields next is
    whitespace-only, the tick marks that unit visible, and no other unit;
    the generator moves past it, the timer is cleared and the completion
    marker is untouched.  When the unit holds a whitespace character, so
    that its text is not empty, it has a unit before it and a unit after
    it; the tick adds [ellipsis-after] to the first and [ellipsis-before]
    to the second, changes no other unit, shows the button and returns. *)
Theorem C1_page_break_tick es id t g p u :
  let st := run es constructor in
  let st' := snd (tick id st) in
  find_timer id st = Some t →
  armed t = true →
  letters st = Some g →
  fst (next g) = Some p →
  textBox_children st !! p = Some u →
  trim (textContent u) = [] →
  (∃ u', textBox_children st' !! p = Some u'
     ∧ has_class "visible" u' = true
     ∧ textContent u' = textContent u)
  ∧ (∀ i w', i ≠ p → textBox_children st' !! i = Some w' →
       ∃ w, textBox_children st !! i = Some w
         ∧ has_class "visible" w' = has_class "visible" w)
  ∧ letters st' = Some (mkGenerator (gen_letters g) (S (gen_index g)))
  ∧ find_timer id st' = None
  ∧ textBox_data_complete st' = textBox_data_complete st
  ∧ (textContent u ≠ [] →
     ∃ q prev nxt,
       p = S q
       ∧ textBox_children st !! q = Some prev
       ∧ textBox_children st !! S p = Some nxt
       ∧ fst (tick id st) = Returned
       ∧ textBox_children st' !! p = Some (classList_add "visible" u)
       ∧ textBox_children st' !! q
         = Some (classList_add "ellipsis-after" prev)
       ∧ textBox_children st' !! S p
         = Some (classList_add "ellipsis-before" nxt)
       ∧ (∀ i, i ≠ q → i ≠ p → i ≠ S p →
            textBox_children st' !! i = textBox_children st !! i)
       ∧ continueButton_hidden st' = false).
Proof.
  intros st st' Hf Ha Hg Hp Hu Hws.
  pose proof (wf_run es) as Hwf. fold st in Hwf.
  destruct (tick_break id t st g p u Hf Ha Hg Hp Hu Hws)
    as (bA & bB & Hc & HA & HB & Hret & Hbut & Hl & Ht & Hd & _).
  fold st' in Hc, Hret, Hbut, Hl, Ht, Hd. split_and!; try done.
  - destruct (marked_lookup_fwd bA bB p _ _ _ Hu)
      as (u' & Hu' & Htx & _ & Hv & _).
    exists u'. rewrite Hc. split_and!; [done| |done].
    rewrite Hv. by rewrite bool_decide_eq_true_2.
  - intros i w' Hi. rewrite Hc.
    intros (w & Hw & _ & _ & Hv & _)%marked_lookup.
    exists w. split; [done|]. rewrite Hv.
    by rewrite bool_decide_eq_false_2.
  - unfold find_timer. rewrite Ht. apply find_cleared.
  - intros Hne.
    destruct (whitespace_unit_inner _ Hwf _ _ Hu Hws Hne) as [Hpos Hlt].
    destruct p as [|q]; [lia|].
    destruct (lookup_lt_is_Some_2 (textBox_children st) q) as [prev Hprev];
      [lia|].
    destruct (lookup_lt_is_Some_2 (textBox_children st) (S (S q)))
      as [nxt Hnxt]; [lia|].
    assert (bB = true) as -> by (apply HB; lia).
    assert (bA = true) as -> by (apply HA; lia).
    exists q, prev, nxt. rewrite Hc. unfold marked. simpl.
    split_and!; try done.
    + rewrite list_lookup_alter_ne, list_lookup_alter_ne by lia.
      by rewrite list_lookup_alter_eq, Hu.
    + rewrite list_lookup_alter_ne by lia.
      rewrite list_lookup_alter_eq, list_lookup_alter_ne by lia.
      by rewrite Hprev.
    + rewrite list_lookup_alter_eq.
      rewrite !list_lookup_alter_ne by lia. by rewrite Hnxt.
    + intros i H1 H2 H3. by rewrite !list_lookup_alter_ne.
Qed.

(** The theorem at the hundredth tick of the 101-unit text. *)
Lemma C1_page_break_tick_witness :
  let st := run (SetText (Some page_text) :: replicate 99 (Tick 0)) constructor in
  let st' := snd (tick 0 st) in
  let u := char_span [32%N] in
  (∃ u', textBox_children st' !! 99 = Some u'
     ∧ has_class "visible" u' = true
     ∧ textContent u' = textContent u)
  ∧ (∀ i w', i ≠ 99 → textBox_children st' !! i = Some w' →
       ∃ w, textBox_children st !! i = Some w
         ∧ has_class "visible" w' = has_class "visible" w)
  ∧ letters st' = Some (mkGenerator (seq 0 101) 100)
  ∧ find_timer 0 st' = None
  ∧ textBox_data_complete st' = textBox_data_complete st
  ∧ (textContent u ≠ [] →
     ∃ q prev nxt,
       99 = S q
       ∧ textBox_children st !! q = Some prev
       ∧ textBox_children st !! 100 = Some nxt
       ∧ fst (tick 0 st) = Returned
       ∧ textBox_children st' !! 99 = Some (classList_add "visible" u)
       ∧ textBox_children st' !! q
         = Some (classList_add "ellipsis-after" prev)
       ∧ textBox_children st' !! 100
         = Some (classList_add "ellipsis-before" nxt)
       ∧ (∀ i, i ≠ q → i ≠ 99 → i ≠ 100 →
            textBox_children st' !! i = textBox_children st !! i)
       ∧ continueButton_hidden st' = false).
Proof.
  apply (C1_page_break_tick
           (SetText (Some page_text) :: replicate 99 (Tick 0)) 0
           (mkTimer 0 100 false) (mkGenerator (seq 0 101) 99) 99
           (char_span [32%N]));
    vm_compute; reflexivity.
Defined.

(** C1 as stated fails: on the text of 99 letters, a space and a letter,
    the hundredth tick resolves the page break on the space, which was not
    of class [visible] before the tick and is after it. *)
Lemma C1_counterexample :
  let st := run (SetText (Some page_text) :: replicate 99 (Tick 0)) constructor in
  find_timer 0 st = Some (mkTimer 0 100 false)
  ∧ armed (mkTimer 0 100 false) = true
  ∧ (fst ∘ next <$> letters st) = Some (Some 99)
  ∧ (textContent <$> textBox_children st !! 99) = Some [32%N]
  ∧ trim [32%N] = []
  ∧ (has_class "visible" <$> textBox_children st !! 99) = Some false
  ∧ fst (tick 0 st) = Returned
  ∧ find_timer 0 (snd (tick 0 st)) = None
  ∧ (has_class "visible" <$> textBox_children (snd (tick 0 st)) !! 99)
    = Some true
  ∧ length (visible_units (snd (tick 0 st))) = 100.
Proof. vm_compute. repeat split. Qed.

(** C10 fails on the code: a text assignment can leave a whitespace-only
    unit first or last, because the markup parser drops U+0000 and leaves
    an empty span, which trimming did not remove.  On the text of 99
    letters and U+0000, the hundredth tick resolves a page break on the
    last unit, finds no next sibling and fails; with a timer at count 100
    still active, the assignment of U+0000 and a letter makes its next
    tick resolve a page break on the first unit, find no previous sibling
    and fail. *)
Theorem C10_break_unit_without_sibling :
  (let st := run before_break_at_last constructor in
   find_timer 0 st = Some (mkTimer 0 100 false)
   ∧ armed (mkTimer 0 100 false) = true
   ∧ (fst ∘ next <$> letters st) = Some (Some 99)
   ∧ (textContent <$> textBox_children st !! 99) = Some []
   ∧ length (textBox_children st) = 100
   ∧ previousElementSibling 99 = Some 98
   ∧ nextElementSibling (textBox_children st) 99 = None
   ∧ fst (tick 0 st) = TypeError)
  ∧ (let st := run before_break_at_first constructor in
     find_timer 0 st = Some (mkTimer 0 100 false)
     ∧ (fst ∘ next <$> letters st) = Some (Some 0)
     ∧ (textContent <$> textBox_children st !! 0) = Some []
     ∧ length (textBox_children st) = 2
     ∧ previousElementSibling 0 = None
     ∧ fst (tick 0 st) = TypeError).
Proof. vm_compute. repeat split. Qed.

(** C5 fails on the code: the break handling has no guard.  On the text
    of 99 letters and U+0000 the hundredth tick resolves a page break on
    the last unit: it decorates the unit before it, then fails on the
    missing next sibling; the case is not treated as exhaustion, since the
    completion marker stays unset, the label stays "Continue…" and the
    button stays hidden, while the timer is cleared, so the reveal is stuck.
    With the break unit first, the tick fails on the missing previous
    sibling before it decorates anything. *)
Theorem C5_break_without_sibling_fails :
  (let st := run before_break_at_last constructor in
   let st' := snd (tick 0 st) in
   fst (tick 0 st) = TypeError
   ∧ (has_class "visible" <$> textBox_children st' !! 99) = Some true
   ∧ (has_class "ellipsis-after" <$> textBox_children st' !! 98) = Some true
   ∧ textBox_data_complete st' = false
   ∧ continueButton_textContent st' = label_Continue
   ∧ continueButton_hidden st' = true
   ∧ timers st' = [])
  ∧ (let st := run before_break_at_first constructor in
     let st' := snd (tick 0 st) in
     fst (tick 0 st) = TypeError
     ∧ (has_class "visible" <$> textBox_children st' !! 0) = Some true
     ∧ (has_class "ellipsis-before" <$> textBox_children st' !! 1)
       = Some false
     ∧ textBox_data_complete st' = false
     ∧ continueButton_hidden st' = true
     ∧ find_timer 0 st' = None).
Proof. vm_compute. repeat split. Qed.

(** * The reveal as a whole *)

(** ** The marks on the units *)

Section Marks.

(** What a callback does to the children and to the generator. *)
Lemma callback_shape t self :
  wf self →
  (textBox_children (snd (callback t self)) = textBox_children self
   ∧ letters (snd (callback t self)) = letters self
   ∧ ∀ g, letters self = Some g →
       length (textBox_children self) ≤ gen_index g)
  ∨ (∃ g u bA bB,
       letters self = Some g
       ∧ textBox_children self !! gen_index g = Some u
       ∧ letters (snd (callback t self))
         = Some (mkGenerator (gen_letters g) (S (gen_index g)))
       ∧ textBox_children (snd (callback t self))
         = marked bA bB (gen_index g) (textBox_children self)
       ∧ (bA = true →
            armed t = true ∧ trim (textContent u) = [] ∧ 0 < gen_index g)
       ∧ (bB = true → bA = true)).
Proof.
  intros Hwf. unfold callback, next.
  destruct (letters self) as [g|] eqn:Hg; [|left; by split_and!].
  pose proof (wf_letters _ Hwf _ Hg) as Hseq. rewrite Hseq.
  destruct (decide (gen_index g < length (textBox_children self)))
    as [Hlt|Hge].
  - right. rewrite lookup_seq_lt by done. simpl.
    destruct (lookup_lt_is_Some_2 _ _ Hlt) as [u Hu]. rewrite Hu.
    exists g, u.
    destruct (armed t && negb (truthy (trim (textContent u)))) eqn:Hbrk.
    + apply andb_prop in Hbrk as [Ha Hws].
      assert (trim (textContent u) = []) as Hws'.
      { by destruct (trim (textContent u)). }
      destruct (gen_index g) as [|q] eqn:Hq; simpl.
      * exists false, false. rewrite marked_none, Hseq. by split_and!.
      * unfold nextElementSibling. simpl. rewrite !length_alter.
        case_decide.
        -- exists true, true. simpl. rewrite Hseq.
           split_and!; try done. intros _. split_and!; [done..|lia].
        -- exists true, false. simpl. rewrite marked_after, Hseq.
           split_and!; try done. intros _. split_and!; [done..|lia].
    + exists false, false. simpl. rewrite marked_none, Hseq. by split_and!.
  - left. rewrite lookup_seq_ge by lia. simpl. split_and!; [done..|].
    intros g' [= <-]. lia.
Qed.

Lemma hide_visible_lookup (l : list Span) i u' :
  hide_visible l !! i = Some u' →
  ∃ u, l !! i = Some u
    ∧ textContent u' = textContent u
    ∧ (∀ c, has_class c u' = has_class c u)
    ∧ hidden u' = has_class "visible" u || hidden u.
Proof.
  unfold hide_visible. rewrite list_lookup_fmap.
  destruct (l !! i) as [u|]; simpl; [|done].
  intros [= <-]. exists u. split; [done|].
  by destruct (has_class "visible" u) eqn:Hv.
Qed.

Lemma reveal_inv_constructor : reveal_inv constructor.
Proof. split; simpl; try done; intros; by simplify_list_eq. Qed.

Lemma reveal_inv_attributeChangedCallback name oldValue newValue self :
  reveal_inv self →
  reveal_inv (attributeChangedCallback name oldValue newValue self).
Proof.
  intros Hri. unfold attributeChangedCallback.
  destruct newValue as [s|]; [|done].
  destruct (truthy s); simpl; [|done].
  assert (∀ i u c, segment s !! i = Some u →
            has_class c u = bool_decide (c = "char") ∧ hidden u = false)
    as Hseg.
  { intros i u c. unfold segment. rewrite list_lookup_fmap.
    destruct (split (trim s) !! i); simpl; [|done].
    intros [= <-]. by rewrite has_class_char_span. }
  split; simpl; try done.
  - intros g [= <-]. simpl. lia.
  - intros g i u [= <-] Hu. simpl.
    destruct (Hseg i u "visible" Hu) as [-> _]. split; [done|lia].
  - intros i u Hu. by destruct (Hseg i u "visible" Hu) as [_ ->].
  - intros i u Hu. by destruct (Hseg i u "ellipsis-after" Hu) as [-> _].
  - intros i u Hu. by destruct (Hseg i u "ellipsis-before" Hu) as [-> _].
Qed.

Lemma reveal_inv_pointerup self : reveal_inv self → reveal_inv (pointerup self).
Proof.
  intros [Hn Hb Hv Hh Ha Hbf]. unfold pointerup.
  destruct (textBox_data_complete self); [by split|].
  split; simpl.
  - intros Hl. by rewrite (Hn Hl).
  - intros g Hg. rewrite length_hide_visible. auto.
  - intros g i u' Hg (u & Hu & _ & Hc & _)%hide_visible_lookup.
    rewrite Hc. eauto.
  - intros i u' (u & Hu & _ & Hc & Hhid)%hide_visible_lookup.
    rewrite Hc, Hhid. destruct (has_class "visible" u) eqn:Hvis; [done|].
    simpl. eauto.
  - intros i u' (u & Hu & _ & Hc & _)%hide_visible_lookup.
    rewrite Hc. intros (w & Hw & Hws & Hvis)%(Ha _ _ Hu).
    pose proof (lookup_lt_Some _ _ _ Hw) as Hlt.
    rewrite <- length_hide_visible in Hlt.
    destruct (lookup_lt_is_Some_2 _ _ Hlt) as [w' Hw'].
    exists w'. split; [done|].
    apply hide_visible_lookup in Hw' as (w0 & Hw0 & Ht & Hc' & _).
    simplify_eq. by rewrite Ht, Hc'.
  - intros i u' (u & Hu & _ & Hc & _)%hide_visible_lookup.
    rewrite Hc. intros (q & w & -> & Hw & Hws & Hvis)%(Hbf _ _ Hu).
    pose proof (lookup_lt_Some _ _ _ Hw) as Hlt.
    rewrite <- length_hide_visible in Hlt.
    destruct (lookup_lt_is_Some_2 _ _ Hlt) as [w' Hw'].
    exists q, w'. split_and!; [done..| |].
    all: apply hide_visible_lookup in Hw' as (w0 & Hw0 & Ht & Hc' & _).
    all: simplify_eq; by rewrite ?Ht, ?Hc'.
Qed.

Lemma reveal_inv_callback t self :
  wf self → reveal_inv self → reveal_inv (snd (callback t self)).
Proof.
  intros Hwf [Hn Hb Hv Hh Ha Hbf].
  destruct (callback_shape t self Hwf)
    as [(Hc & Hl & _) | (g & u & bA & bB & Hg & Hu & Hl & Hc & HA & HB)].
  { split; rewrite ?Hc, ?Hl; done. }
  pose proof (lookup_lt_Some _ _ _ Hu) as Hlt.
  split; rewrite ?Hc, ?Hl.
  - done.
  - intros g' [= <-]. simpl. rewrite length_marked. lia.
  - intros g' i u' [= <-] (u0 & Hu0 & _ & _ & Hvis & _)%marked_lookup.
    simpl. rewrite Hvis. pose proof (Hv g i u0 Hg Hu0) as Hiff.
    case_bool_decide; simpl; [split; [lia|done]|].
    rewrite Hiff. lia.
  - intros i u' (u0 & Hu0 & _ & Hhid & Hvis & _)%marked_lookup.
    rewrite Hhid, Hvis. intros Hh0%(Hh _ _ Hu0). rewrite Hh0.
    apply orb_true_r.
  - intros i u' (u0 & Hu0 & _ & _ & _ & Hea & _)%marked_lookup.
    rewrite Hea. intros [[HbA Hi%bool_decide_eq_true]%andb_prop | Hold]%orb_prop.
    + destruct (HA HbA) as (_ & Hws & Hpos).
      destruct (marked_lookup_fwd bA bB (gen_index g) _ _ _ Hu)
        as (w & Hw & Ht & _ & Hvis & _).
      exists w. replace (S i) with (gen_index g) by lia.
      split_and!; [done|by rewrite Ht|].
      rewrite Hvis. by rewrite bool_decide_eq_true_2.
    + destruct (Ha _ _ Hu0 Hold) as (w0 & Hw0 & Hws & Hvis0).
      destruct (marked_lookup_fwd bA bB (gen_index g) _ _ _ Hw0)
        as (w & Hw & Ht & _ & Hvis & _).
      exists w. split_and!; [done|by rewrite Ht|].
      rewrite Hvis, Hvis0. apply orb_true_r.
  - intros i u' (u0 & Hu0 & _ & _ & _ & _ & Heb)%marked_lookup.
    rewrite Heb. intros [[HbB Hi%bool_decide_eq_true]%andb_prop | Hold]%orb_prop.
    + destruct (HA (HB HbB)) as (_ & Hws & Hpos).
      destruct (marked_lookup_fwd bA bB (gen_index g) _ _ _ Hu)
        as (w & Hw & Ht & _ & Hvis & _).
      exists (gen_index g), w.
      split_and!; [done|done|by rewrite Ht|].
      rewrite Hvis. by rewrite bool_decide_eq_true_2.
    + destruct (Hbf _ _ Hu0 Hold) as (q & w0 & -> & Hw0 & Hws & Hvis0).
      destruct (marked_lookup_fwd bA bB (gen_index g) _ _ _ Hw0)
        as (w & Hw & Ht & _ & Hvis & _).
      exists q, w. split_and!; [done|done|by rewrite Ht|].
      rewrite Hvis, Hvis0. apply orb_true_r.
Qed.

Lemma reveal_inv_step self e :
  wf self → reveal_inv self → reveal_inv (step self e).
Proof.
  intros Hwf Hri. destruct e as [v|id|]; simpl.
  - by apply reveal_inv_attributeChangedCallback.
  - unfold tick. destruct (find_timer id self); [|done].
    by apply reveal_inv_callback.
  - by apply reveal_inv_pointerup.
Qed.

Lemma reveal_inv_run_from es : ∀ self,
  wf self → reveal_inv self → reveal_inv (run es self).
Proof.
  unfold run. induction es as [|e es IH]; simpl; [done|].
  intros self Hwf Hri. apply IH; [by apply wf_step|by apply reveal_inv_step].
Qed.

Lemma reveal_inv_run es : reveal_inv (run es constructor).
Proof.
  apply reveal_inv_run_from; [apply wf_constructor|apply reveal_inv_constructor].
Qed.

(** The units that satisfy a predicate holding exactly on the first [k]. *)
Lemma length_filter_prefix {A} (P : A → Prop) `{!∀ x, Decision (P x)}
    (l : list A) : ∀ k,
  k ≤ length l →
  (∀ i x, l !! i = Some x → (P x ↔ i < k)) →
  length (filter P l) = k.
Proof.
  induction l as [|a l IH]; intros k Hk Hiff; simpl in *.
  - lia.
  - rewrite filter_cons. destruct (decide (P a)) as [Ha|Ha].
    + apply (Hiff 0 a eq_refl) in Ha as Hpos.
      destruct k as [|k]; [lia|]. simpl. f_equal. apply IH; [lia|].
      intros i x Hx. rewrite (Hiff (S i) x Hx). lia.
    + assert (k = 0) as ->.
      { destruct k; [done|]. exfalso. apply Ha, (Hiff 0 a eq_refl). lia. }
      apply IH; [lia|]. intros i x Hx. rewrite (Hiff (S i) x Hx). lia.
Qed.

End Marks.

(** X3: in every state a run reaches, the generator stands within the
    units, the units of class [visible] are exactly those before its
    position, and their number is that position. *)
Theorem visible_units_are_the_yielded_prefix es g :
  let st := run es constructor in
  letters st = Some g →
  gen_index g ≤ length (textBox_children st)
  ∧ (∀ i u, textBox_children st !! i = Some u →
       (has_class "visible" u = true ↔ i < gen_index g))
  ∧ length (visible_units st) = gen_index g.
Proof.
  intros st Hg. destruct (reveal_inv_run es) as [_ Hb Hv _ _ _].
  fold st in Hb, Hv. specialize (Hb g Hg). specialize (Hv g).
  split_and!; [done | by intros i u Hu; apply Hv |].
  apply length_filter_prefix; [done | by intros i u Hu; apply Hv].
Qed.

(** The theorem after a text assignment, two ticks, a continue action and
    a tick of each timer. *)
Lemma visible_units_are_the_yielded_prefix_witness :
  let st := run [setText "a b c"; Tick 0; Tick 0; PointerUp; Tick 1; Tick 0]
              constructor in
  4 ≤ length (textBox_children st)
  ∧ (∀ i u, textBox_children st !! i = Some u →
       (has_class "visible" u = true ↔ i < 4))
  ∧ length (visible_units st) = 4.
Proof.
  apply (visible_units_are_the_yielded_prefix
           [setText "a b c"; Tick 0; Tick 0; PointerUp; Tick 1; Tick 0]
           (mkGenerator (seq 0 5) 4)).
  vm_compute. reflexivity.
Defined.

(** X4: in every state a run reaches, a unit whose [hidden] attribute is
    set is of class [visible]: the continue action hides revealed units
    only, and a tick never hides. *)
Theorem hidden_units_are_revealed es i u :
  let st := run es constructor in
  textBox_children st !! i = Some u →
  hidden u = true →
  has_class "visible" u = true.
Proof. intros st. apply (ri_hidden _ (reveal_inv_run es)). Qed.

Lemma hidden_units_are_revealed_witness :
  has_class "visible"
    (mkSpan [97%N] ({["visible"]} ∪ {["char"]}) true) = true.
Proof.
  apply (hidden_units_are_revealed
           [setText "a b c"; Tick 0; Tick 0; PointerUp] 0
           (mkSpan [97%N] ({["visible"]} ∪ {["char"]}) true));
    vm_compute; reflexivity.
Defined.

(** X5: in every state a run reaches, a unit of class [ellipsis-after] is
    directly followed, and a unit of class [ellipsis-before] directly
    preceded, by a whitespace-only unit of class [visible]: the
    decorations only ever surround a whitespace unit that was yielded. *)
Theorem ellipses_surround_a_whitespace_unit es i u :
  let st := run es constructor in
  textBox_children st !! i = Some u →
  (has_class "ellipsis-after" u = true →
     ∃ w, textBox_children st !! S i = Some w
       ∧ trim (textContent w) = [] ∧ has_class "visible" w = true)
  ∧ (has_class "ellipsis-before" u = true →
     ∃ q w, i = S q ∧ textBox_children st !! q = Some w
       ∧ trim (textContent w) = [] ∧ has_class "visible" w = true).
Proof.
  intros st Hu. destruct (reveal_inv_run es) as [_ _ _ _ Ha Hb].
  split; [by apply Ha | by apply Hb].
Qed.

Lemma ellipses_surround_a_whitespace_unit_witness :
  let st := run (SetText (Some page_text) :: replicate 100 (Tick 0))
              constructor in
  let u := mkSpan [97%N] ({["ellipsis-after"]} ∪ ({["visible"]} ∪ {["char"]}))
             false in
  (has_class "ellipsis-after" u = true →
     ∃ w, textBox_children st !! 99 = Some w
       ∧ trim (textContent w) = [] ∧ has_class "visible" w = true)
  ∧ (has_class "ellipsis-before" u = true →
     ∃ q w, 98 = S q ∧ textBox_children st !! q = Some w
       ∧ trim (textContent w) = [] ∧ has_class "visible" w = true).
Proof.
  apply (ellipses_surround_a_whitespace_unit
           (SetText (Some page_text) :: replicate 100 (Tick 0)) 98
           (mkSpan [97%N]
              ({["ellipsis-after"]} ∪ ({["visible"]} ∪ {["char"]})) false)).
  vm_compute. reflexivity.
Defined.

(** ** Completion *)

(** A callback sets the completion marker only when the generator is
    done. *)
Lemma callback_completes t self :
  textBox_data_complete self = false →
  textBox_data_complete (snd (callback t self)) = true →
  (∃ g, letters self = Some g ∧ fst (next g) = None)
  ∧ textBox_children (snd (callback t self)) = textBox_children self
  ∧ continueButton_textContent (snd (callback t self)) = label_Done
  ∧ continueButton_hidden (snd (callback t self)) = false
  ∧ timers (snd (callback t self))
    = filter (λ t', intervalID t' ≠ intervalID t) (timers self).
Proof.
  unfold callback. intros Hc.
  repeat case_match; simpl; rewrite ?Hc; intros; simplify_eq/=.
  split_and!; try done. eexists. split; [done|].
  by match goal with H : next _ = _ |- _ => rewrite H end.
Qed.

(** The units of a run are those made of the text last assigned; before
    any assignment there is neither a unit nor a generator. *)
Lemma run_assigned_text es :
  match assigned_text es with
  | Some s => texts (run es constructor) = textContent <$> segment s
  | None => texts (run es constructor) = []
            ∧ letters (run es constructor) = None
  end.
Proof.
  induction es as [|e es IH] using rev_ind; [done|].
  unfold run, assigned_text in *. rewrite !foldl_app. simpl.
  set (st := foldl step constructor es) in *.
  set (a := foldl _ None es) in *.
  destruct e as [[s|]|tid|]; simpl.
  - unfold attributeChangedCallback. destruct (truthy s); [done|].
    simpl. done.
  - done.
  - assert (texts (snd (tick tid st)) = texts st
            ∧ (letters st = None → letters (snd (tick tid st)) = None))
      as [Ht Hl].
    { unfold tick. destruct (find_timer tid st) as [t|]; [|done].
      split; [apply callback_texts|].
      intros Hn. unfold callback. by rewrite Hn. }
    rewrite Ht. destruct a; [done|]. destruct IH. auto.
  - assert (texts (pointerup st) = texts st
            ∧ letters (pointerup st) = letters st) as [Ht Hl].
    { unfold pointerup. destruct (textBox_data_complete st); [done|].
      split; [apply texts_hide_visible|done]. }
    rewrite Ht, Hl. done.
Qed.

(** X6: in every state a run reaches, a tick that sets the completion
    marker finds every unit of the text box revealed: a text was assigned,
    the text box has one unit per code unit of that text after trimming,
    all of them are of class [visible], the label is "Done", the button is
    shown and the timer of that tick is cleared. *)
Theorem completion_means_all_units_revealed es id :
  let st := run es constructor in
  let st' := snd (tick id st) in
  textBox_data_complete st = false →
  textBox_data_complete st' = true →
  ∃ s, assigned_text es = Some s
    ∧ length (textBox_children st') = length (trim s)
    ∧ Forall (λ u, has_class "visible" u = true) (textBox_children st')
    ∧ length (visible_units st') = length (trim s)
    ∧ continueButton_textContent st' = label_Done
    ∧ continueButton_hidden st' = false
    ∧ find_timer id st' = None.
Proof.
  intros st st' Hc Hc'. subst st'. unfold tick in *.
  destruct (find_timer id st) as [t|] eqn:Hf; [|simpl in Hc'; congruence].
  apply find_timer_Some in Hf as [_ Hid].
  destruct (callback_completes t st Hc Hc')
    as ((g & Hg & Hdone) & Hch & Hlab & Hbut & Htim).
  pose proof (wf_run es) as Hwf. fold st in Hwf.
  destruct (reveal_inv_run es) as [_ Hb Hv _ _ _]. fold st in Hb, Hv.
  assert (gen_index g = length (textBox_children st)) as Hall.
  { specialize (Hb g Hg). unfold next in Hdone.
    rewrite (wf_letters _ Hwf g Hg) in Hdone.
    destruct (decide (gen_index g < length (textBox_children st))) as [Hlt|];
      [|lia].
    by rewrite lookup_seq_lt in Hdone. }
  assert (Forall (λ u, has_class "visible" u = true) (textBox_children st))
    as Hvis.
  { apply Forall_lookup. intros i u Hu. apply (Hv g i u Hg Hu).
    rewrite Hall. by eapply lookup_lt_Some. }
  pose proof (run_assigned_text es) as Hrun. fold st in Hrun.
  destruct (assigned_text es) as [s|]; [|destruct Hrun; congruence].
  assert (length (textBox_children st) = length (trim s)) as Hlen.
  { rewrite <- (length_fmap textContent). fold (texts st). rewrite Hrun.
    unfold segment, split. by rewrite !length_fmap. }
  exists s. rewrite Hch. split_and!; try done.
  - unfold visible_units. rewrite Hch, <- Hlen.
    apply length_filter_prefix; [done|].
    intros i u Hu. rewrite Forall_lookup in Hvis.
    split; [intros _; by eapply lookup_lt_Some | intros _; by eapply Hvis].
  - unfold find_timer. rewrite Htim, <- Hid. apply find_cleared.
Qed.

Lemma completion_means_all_units_revealed_witness :
  let st := run (setText " abc " :: replicate 3 (Tick 0)) constructor in
  let st' := snd (tick 0 st) in
  ∃ s, assigned_text (setText " abc " :: replicate 3 (Tick 0)) = Some s
    ∧ length (textBox_children st') = length (trim s)
    ∧ Forall (λ u, has_class "visible" u = true) (textBox_children st')
    ∧ length (visible_units st') = length (trim s)
    ∧ continueButton_textContent st' = label_Done
    ∧ continueButton_hidden st' = false
    ∧ find_timer 0 st' = None.
Proof.
  apply (completion_means_all_units_revealed
           (setText " abc " :: replicate 3 (Tick 0)) 0);
    vm_compute; reflexivity.
Defined.

(** The marker and the shown button survive every event but a
    button action. *)
Lemma step_keeps_completion self e :
  is_PointerUp e = false →
  textBox_data_complete self = true →
  continueButton_hidden self = false →
  textBox_data_complete (step self e) = true
  ∧ continueButton_hidden (step self e) = false.
Proof.
  intros He Hc Hb. destruct e as [v|id|]; simpl; [| |done].
  - unfold attributeChangedCallback. destruct v as [s|]; [|done].
    by destruct (truthy s).
  - unfold tick. destruct (find_timer id self); [|done].
    unfold callback. repeat case_match; simpl; by rewrite ?Hc, ?Hb.
Qed.

(** X7: neither a text assignment nor a tick clears the completion marker
    or hides the button.  Once a text has completed, and until the button
    is used, every later state, also during the reveal of a newly
    assigned text, has the marker set and the button shown; the button
    action then dismisses: it hides the text box and the button and clears
    the marker, and it leaves the active timers running. *)
Theorem completion_marker_survives_text_assignment self es :
  textBox_data_complete self = true →
  continueButton_hidden self = false →
  forallb (λ e, negb (is_PointerUp e)) es = true →
  let st := run es self in
  textBox_data_complete st = true
  ∧ continueButton_hidden st = false
  ∧ textBox_hidden (pointerup st) = true
  ∧ continueButton_hidden (pointerup st) = true
  ∧ textBox_data_complete (pointerup st) = false
  ∧ timers (pointerup st) = timers st.
Proof.
  intros Hc Hb Hes st.
  assert (textBox_data_complete st = true ∧ continueButton_hidden st = false)
    as [Hc' Hb'].
  { subst st. revert self Hc Hb. unfold run.
    induction es as [|e es IH]; simpl in *; [done|].
    apply andb_prop in Hes as [He Hes]. apply negb_true_iff in He.
    intros self Hc Hb.
    destruct (step_keeps_completion self e He Hc Hb). by apply IH. }
  unfold pointerup. rewrite Hc'. by split_and!.
Qed.

Lemma completion_marker_survives_text_assignment_witness :
  let st := run [setText "next"; Tick 0; Tick 1]
              (run (setText "abc" :: replicate 4 (Tick 0)) constructor) in
  textBox_data_complete st = true
  ∧ continueButton_hidden st = false
  ∧ textBox_hidden (pointerup st) = true
  ∧ continueButton_hidden (pointerup st) = true
  ∧ textBox_data_complete (pointerup st) = false
  ∧ timers (pointerup st) = timers st.
Proof.
  apply (completion_marker_survives_text_assignment
           (run (setText "abc" :: replicate 4 (Tick 0)) constructor)
           [setText "next"; Tick 0; Tick 1]);
    vm_compute; reflexivity.
Defined.

(** ** Whitespace around the text *)

Section Surrounding.

Lemma trimStart_ws_app l x :
  Forall (λ c, isWhiteSpace c = true) l → trimStart (l ++ x) = trimStart x.
Proof. induction 1 as [|c l Hc _ IH]; simpl; [done|]. by rewrite Hc. Qed.

Lemma trimStart_all_ws s :
  Forall (λ c, isWhiteSpace c = true) s ↔ trimStart s = [].
Proof.
  split.
  - intros Hs. rewrite <- (app_nil_r s). by rewrite trimStart_ws_app.
  - intros He. destruct (trimStart_split s) as [l [Hl Hws]].
    rewrite He, app_nil_r in Hl. by subst.
Qed.

Lemma trimStart_app s r :
  trimStart s ≠ [] → trimStart (s ++ r) = trimStart s ++ r.
Proof.
  induction s as [|c s IH]; simpl; [done|].
  destruct (isWhiteSpace c); [done|]. done.
Qed.

Lemma trimEnd_app_ws x r :
  Forall (λ c, isWhiteSpace c = true) r → trimEnd (x ++ r) = trimEnd x.
Proof.
  intros Hr. unfold trimEnd. rewrite reverse_app.
  by rewrite trimStart_ws_app by (by apply Forall_reverse).
Qed.

Lemma trim_all_ws s : Forall (λ c, isWhiteSpace c = true) s → trim s = [].
Proof. intros Hs%trimStart_all_ws. unfold trim. by rewrite Hs. Qed.

Lemma trim_surrounded l s r :
  Forall (λ c, isWhiteSpace c = true) l →
  Forall (λ c, isWhiteSpace c = true) r →
  trim (l ++ s ++ r) = trim s.
Proof.
  intros Hl Hr. unfold trim. rewrite trimStart_ws_app by done.
  destruct (trimStart s) as [|c s'] eqn:Hs.
  - apply trimStart_all_ws in Hs.
    assert (trimStart (s ++ r) = []) as ->; [|done].
    apply trimStart_all_ws, Forall_app. done.
  - rewrite trimStart_app by (by rewrite Hs). rewrite Hs.
    by apply trimEnd_app_ws.
Qed.

End Surrounding.

(** X12: whitespace around a text never reaches the text box: a text
    with whitespace added in front and behind is segmented into the same
    units, and so is the text trimmed beforehand. *)
Theorem segment_ignores_surrounding_whitespace l s r :
  Forall (λ c, isWhiteSpace c = true) l →
  Forall (λ c, isWhiteSpace c = true) r →
  segment (l ++ s ++ r) = segment s ∧ segment (trim s) = segment s.
Proof.
  intros Hl Hr. unfold segment. rewrite trim_surrounded by done.
  split; [done|].
  destruct (trim_split s) as (l' & r' & Hs & Hl' & Hr').
  rewrite Hs at 2. by rewrite trim_surrounded.
Qed.

Lemma segment_ignores_surrounding_whitespace_witness :
  segment (of_string "  " ++ of_string "a b" ++ [10%N])
    = segment (of_string "a b")
  ∧ segment (trim (of_string "a b")) = segment (of_string "a b").
Proof.
  apply (segment_ignores_surrounding_whitespace
           (of_string "  ") (of_string "a b") [10%N]);
    repeat constructor.
Defined.

(** Clearing the timer just registered gives back the earlier timers. *)
Lemma filter_fresh id index0 look0 (l : list Timer) :
  Forall (λ t, intervalID t < id) l →
  filter (λ t, intervalID t ≠ id) (l ++ [mkTimer id index0 look0]) = l.
Proof.
  induction 1 as [|t l Ht _ IH]; simpl.
  - by rewrite filter_cons_False by (simpl; tauto).
  - rewrite filter_cons_True by (simpl in *; lia). by rewrite IH.
Qed.

(** X2: a text of whitespace only is not empty, so it is assigned: the
    text box is shown without any unit, and the first tick of the new
    timer finds the generator done: it sets the completion marker and the
    "Done" label, shows the button and clears the timer. *)
Theorem whitespace_only_text_completes_at_once es name oldValue (s : JSString) :
  s ≠ [] →
  Forall (λ c, isWhiteSpace c = true) s →
  let st0 := run es constructor in
  let st := attributeChangedCallback name oldValue (Some s) st0 in
  let st' := snd (tick (next_intervalID st0) st) in
  textBox_children st = []
  ∧ textBox_hidden st = false
  ∧ accessibleTextBox_textContent st = s
  ∧ fst (tick (next_intervalID st0) st) = Returned
  ∧ textBox_children st' = []
  ∧ textBox_data_complete st' = true
  ∧ continueButton_textContent st' = label_Done
  ∧ continueButton_hidden st' = false
  ∧ timers st' = timers st0.
Proof.
  intros Hs Hws st0 st st'.
  pose proof (wf_run es) as Hwf. fold st0 in Hwf.
  assert (segment s = []) as Hseg.
  { unfold segment. by rewrite trim_all_ws. }
  assert (st = showLetters
    (set_letters (Some (letterGenerator []))
       (set_textBox_children []
          (set_textBox_hidden false
             (set_continueButton_textContent label_Continue
                (set_accessibleTextBox_textContent s st0)))))) as Hst.
  { subst st. unfold attributeChangedCallback. destruct s; [done|].
    simpl. by rewrite Hseg. }
  assert (find_timer (next_intervalID st0) st
          = Some (mkTimer (next_intervalID st0) 1 false)) as Hf.
  { rewrite Hst. apply find_fresh, Hwf. }
  subst st'. unfold tick. rewrite Hf. rewrite Hst. simpl.
  split_and!; try done.
  apply filter_fresh, Hwf.
Qed.

Lemma whitespace_only_text_completes_at_once_witness :
  let s := [32%N; 9%N; 10%N] in
  let st0 := run [setText "ab"; Tick 0] constructor in
  let st := attributeChangedCallback "text" None (Some s) st0 in
  let st' := snd (tick (next_intervalID st0) st) in
  textBox_children st = []
  ∧ textBox_hidden st = false
  ∧ accessibleTextBox_textContent st = s
  ∧ fst (tick (next_intervalID st0) st) = Returned
  ∧ textBox_children st' = []
  ∧ textBox_data_complete st' = true
  ∧ continueButton_textContent st' = label_Done
  ∧ continueButton_hidden st' = false
  ∧ timers st' = timers st0.
Proof.
  apply (whitespace_only_text_completes_at_once
           [setText "ab"; Tick 0] "text" None [32%N; 9%N; 10%N]).
  - discriminate.
  - repeat constructor.
Defined.

(** ** The generator *)

Lemma after_nexts_position letters k :
  after_nexts k (letterGenerator letters)
  = mkGenerator letters (k `min` length letters).
Proof.
  unfold after_nexts, letterGenerator. induction k as [|k IH].
  - done.
  - rewrite Nat.iter_succ, IH. unfold next. cbn [gen_letters gen_index].
    destruct (decide (k < length letters)) as [Hlt|Hge].
    + destruct (lookup_lt_is_Some_2 letters (k `min` length letters))
        as [x Hx]; [lia|].
      rewrite Hx. cbn [snd]. f_equal. lia.
    + rewrite lookup_ge_None_2 by lia. cbn [snd]. f_equal. lia.
Qed.

(** X1: the generator yields the elements of its array in order, one per
    call: the call after [k] earlier ones yields the element at index [k],
    and reports done from the end of the array on, however often it is
    called again; the array itself is never changed. *)
Theorem letterGenerator_yields_in_order letters k :
  fst (next (after_nexts k (letterGenerator letters))) = letters !! k
  ∧ gen_letters (after_nexts k (letterGenerator letters)) = letters
  ∧ gen_index (after_nexts k (letterGenerator letters)) ≤ length letters.
Proof.
  rewrite after_nexts_position. unfold next. cbn [gen_letters gen_index].
  split_and!; [|done|lia].
  destruct (decide (k < length letters)) as [Hlt|Hge].
  - replace (k `min` length letters) with k by lia.
    by destruct (letters !! k).
  - rewrite lookup_ge_None_2 by lia. cbn [fst].
    symmetry. apply lookup_ge_None_2. lia.
Qed.

(** ** Pages *)

Section Pages.

(** A tick that yields a unit without resolving a page break. *)
Lemma tick_reveals id t self g u :
  find_timer id self = Some t →
  letters self = Some g →
  gen_letters g !! gen_index g = Some (gen_index g) →
  textBox_children self !! gen_index g = Some u →
  (armed t = true → trim (textContent u) ≠ []) →
  tick id self =
    (Returned,
     save_closure id (S (index t)) (armed t)
       (on_element (classList_add "visible") (gen_index g)
          (set_letters
             (Some (mkGenerator (gen_letters g) (S (gen_index g)))) self))).
Proof.
  intros Hf Hg Hp Hu Hnb. pose proof Hf as [_ Hid]%find_timer_Some.
  unfold tick, callback, next. rewrite Hf, Hg, Hp. simpl. rewrite Hu.
  assert (armed t && negb (truthy (trim (textContent u))) = false) as ->.
  { destruct (armed t); [|done]. simpl.
    destruct (trim (textContent u)); [by destruct Hnb|done]. }
  by rewrite Hid.
Qed.

(** As long as no page break resolves, each tick of a timer reveals the
    next unit and advances the running count. *)
Lemma reveal_ticks tid i b n k self : ∀ j,
  find_timer tid self = Some (mkTimer tid i b) →
  1 ≤ i → (b = true ↔ 100 < i) →
  letters self = Some (mkGenerator (seq 0 n) k) →
  length (textBox_children self) = n →
  k + j ≤ n →
  (∀ m u, m < j → 100 ≤ i + m →
     textBox_children self !! (k + m) = Some u → trim (textContent u) ≠ []) →
  let st := run (replicate j (Tick tid)) self in
  find_timer tid st = Some (mkTimer tid (i + j) (bool_decide (100 < i + j)))
  ∧ letters st = Some (mkGenerator (seq 0 n) (k + j))
  ∧ (∀ x, textBox_children st !! x
          = (if decide (k ≤ x < k + j) then classList_add "visible" else id)
              <$> textBox_children self !! x)
  ∧ continueButton_textContent st = continueButton_textContent self
  ∧ continueButton_hidden st = continueButton_hidden self
  ∧ textBox_hidden st = textBox_hidden self
  ∧ textBox_data_complete st = textBox_data_complete self.
Proof.
  intros j Hf Hi Hb Hg Hn. induction j as [|j IH]; intros Hj Hnb st.
  - subst st. simpl. rewrite !Nat.add_0_r. split_and!; try done.
    + rewrite Hf. do 2 f_equal. destruct b.
      * symmetry. apply bool_decide_eq_true. by apply Hb.
      * symmetry. apply bool_decide_eq_false. intros Hlt%Hb. done.
    + intros x. rewrite decide_False by lia. by rewrite option_fmap_id.
  - destruct IH as (Hf' & Hg' & Hc' & Hl' & Hh' & Hbx' & Hd');
      [lia | intros m u Hm; apply Hnb; lia |].
    subst st. rewrite replicate_S_end. unfold run in *.
    rewrite foldl_app. simpl.
    set (stj := foldl step self (replicate j (Tick tid))) in *.
    assert (k + j < n) as Hlt by lia.
    destruct (lookup_lt_is_Some_2 (textBox_children self) (k + j))
      as [u Hu]; [lia|].
    assert (textBox_children stj !! (k + j) = Some u) as Huj.
    { rewrite Hc', decide_False by lia. by rewrite Hu. }
    assert (armed (mkTimer tid (i + j) (bool_decide (100 < i + j))) = true
            ↔ 100 ≤ i + j) as Harm.
    { apply armed_iff. simpl. split; [lia|]. apply bool_decide_eq_true. }
    rewrite (tick_reveals tid _ stj _ u Hf' Hg'); simpl;
      [| by rewrite lookup_seq_lt | done
       | intros Ha%Harm; by apply (Hnb j u); [lia|lia|] ].
    split_and!; try done.
    + unfold find_timer. simpl.
      rewrite (find_save tid _ _ _ _ Hf'). do 2 f_equal; [lia|].
      destruct (decide (100 ≤ i + j)) as [Hy|Hy].
      * rewrite (proj2 Harm Hy). symmetry. apply bool_decide_eq_true. lia.
      * rewrite (bool_decide_eq_false_2 (100 < i + S j)) by lia.
        apply not_true_is_false. intros Ha%Harm. lia.
    + do 3 f_equal. lia.
    + intros x. rewrite list_lookup_alter.
      destruct (decide (k + j = x)) as [<-|Hne].
      * rewrite Huj, Hu, decide_True by lia. done.
      * rewrite Hc'. repeat case_decide; try done; lia.
Qed.

End Pages.

(** The element right after the assignment of a non-empty text [s] in a
    state a run reaches. *)
Lemma assigned_state es name oldValue (s : JSString) (Hs : s ≠ []) :
  let st0 := run es constructor in
  let tid := next_intervalID st0 in
  let st1 := attributeChangedCallback name oldValue (Some s) st0 in
  find_timer tid st1 = Some (mkTimer tid 1 false)
  ∧ letters st1 = Some (mkGenerator (seq 0 (length (trim s))) 0)
  ∧ textBox_children st1 = segment s
  ∧ length (textBox_children st1) = length (trim s)
  ∧ continueButton_textContent st1 = label_Continue
  ∧ continueButton_hidden st1 = continueButton_hidden st0
  ∧ textBox_hidden st1 = false
  ∧ textBox_data_complete st1 = textBox_data_complete st0.
Proof.
  intros st0 tid st1. subst st1. unfold attributeChangedCallback.
  destruct s as [|c0 s0] eqn:Es; [done|]. simpl. rewrite <- Es.
  assert (length (segment s) = length (trim s)) as Hlen.
  { unfold segment, split. by rewrite !length_fmap. }
  split_and!; try done.
  - apply find_fresh, (wf_ids _ (wf_run es)).
  - by rewrite Hlen.
Qed.

Lemma segment_lookup (s : JSString) x :
  segment s !! x = (λ c, char_span [c]) <$> trim s !! x.
Proof.
  unfold segment, split. rewrite !list_lookup_fmap.
  by destruct (trim s !! x).
Qed.

(** The first [j] ticks of the new timer, when no whitespace-only unit at
    or after the hundredth is among the units they yield. *)
Lemma first_page_ticks es name oldValue (s : JSString) (Hs : s ≠ []) j :
  j ≤ length (trim s) →
  (∀ m c, 99 ≤ m → m < j → trim s !! m = Some c →
     isWhiteSpace c = false ∧ c ≠ 0%N) →
  let st0 := run es constructor in
  let tid := next_intervalID st0 in
  let st := run (replicate j (Tick tid))
              (attributeChangedCallback name oldValue (Some s) st0) in
  find_timer tid st = Some (mkTimer tid (S j) (bool_decide (100 ≤ j)))
  ∧ letters st = Some (mkGenerator (seq 0 (length (trim s))) j)
  ∧ (∀ x, textBox_children st !! x
          = (λ c, if decide (x < j)
                  then classList_add "visible" (char_span [c])
                  else char_span [c]) <$> trim s !! x)
  ∧ continueButton_textContent st = label_Continue
  ∧ continueButton_hidden st = continueButton_hidden st0
  ∧ textBox_hidden st = false
  ∧ textBox_data_complete st = textBox_data_complete st0.
Proof.
  intros Hj Hnb st0 tid st.
  destruct (assigned_state es name oldValue s Hs)
    as (Hf & Hg & Hc & Hlen & Hl & Hh & Hx & Hd).
  fold st0 tid in Hf, Hg, Hc, Hlen, Hl, Hh, Hx, Hd.
  set (st1 := attributeChangedCallback name oldValue (Some s) st0) in *.
  destruct (reveal_ticks tid 1 false (length (trim s)) 0 st1 j)
    as (Hf' & Hg' & Hc' & Hl' & Hh' & Hx' & Hd'); try done; try lia.
  { intros m u Hm Hlate. rewrite Hc, segment_lookup. simpl.
    destruct (trim s !! m) as [c|] eqn:Hcm; simpl; [|done].
    intros [= <-]. rewrite char_span_text. intros Hws%parsed_blank.
    destruct (Hnb m c) as [Hw H0]; [lia|done|done|].
    destruct Hws; congruence. }
  fold st in Hf', Hg', Hc', Hl', Hh', Hx', Hd'.
  split_and!; try congruence.
  - rewrite Hf'. do 2 f_equal. apply bool_decide_ext. lia.
  - by rewrite Hg'.
  - intros x. rewrite Hc', Hc, segment_lookup.
    destruct (trim s !! x) as [c|]; simpl; [|done].
    repeat case_decide; try done; lia.
Qed.

Lemma length_of_lookups {A B} (l : list A) (l' : list B) :
  (∀ x, is_Some (l !! x) ↔ is_Some (l' !! x)) → length l = length l'.
Proof.
  intros H. destruct (Nat.lt_trichotomy (length l) (length l'))
    as [Hlt|[He|Hgt]]; [|done|].
  - apply lookup_lt_is_Some_2, H, lookup_lt_is_Some_1 in Hlt. lia.
  - apply lookup_lt_is_Some_2, H, lookup_lt_is_Some_1 in Hgt. lia.
Qed.

(** X8: after the assignment of a non-empty text in any state a run
    reaches, the first [j] ticks of the new timer reveal exactly the first
    [j] units, one per tick and nothing else, provided none of the
    characters yielded from the hundredth on is whitespace or U+0000, whose
    unit is empty: the units before [j] are
    of class [visible], the others are untouched, the generator stands at
    [j] and the running count of the timer is [j + 1], with scanning armed
    from the hundredth tick on. *)
Theorem assigned_text_is_revealed_unit_by_unit
    es name oldValue (s : JSString) j :
  s ≠ [] →
  j ≤ length (trim s) →
  (∀ m c, 99 ≤ m → m < j → trim s !! m = Some c →
     isWhiteSpace c = false ∧ c ≠ 0%N) →
  let st0 := run es constructor in
  let tid := next_intervalID st0 in
  let st := run (replicate j (Tick tid))
              (attributeChangedCallback name oldValue (Some s) st0) in
  (∀ x, textBox_children st !! x
        = (λ c, if decide (x < j)
                then classList_add "visible" (char_span [c])
                else char_span [c]) <$> trim s !! x)
  ∧ length (visible_units st) = j
  ∧ letters st = Some (mkGenerator (seq 0 (length (trim s))) j)
  ∧ find_timer tid st = Some (mkTimer tid (S j) (bool_decide (100 ≤ j)))
  ∧ textBox_hidden st = false
  ∧ continueButton_textContent st = label_Continue
  ∧ continueButton_hidden st = continueButton_hidden st0
  ∧ textBox_data_complete st = textBox_data_complete st0.
Proof.
  intros Hs Hj Hnb st0 tid st.
  destruct (first_page_ticks es name oldValue s Hs j Hj Hnb)
    as (Hf & Hg & Hc & Hl & Hh & Hx & Hd).
  fold st0 tid st in Hf, Hg, Hc, Hl, Hh, Hx, Hd.
  split_and!; try done.
  assert (length (textBox_children st) = length (trim s)) as Hlen.
  { apply length_of_lookups. intros x. rewrite Hc.
    by rewrite fmap_is_Some. }
  apply length_filter_prefix; [lia|].
  intros i u Hu. rewrite Hc in Hu.
  destruct (trim s !! i) as [c|]; simpl in Hu; [|done].
  destruct (decide (i < j)) as [Hi|Hi]; injection Hu as <-.
  - by rewrite has_class_add.
  - rewrite has_class_char_span. split; [done|lia].
Qed.

(** The theorem for a text of 120 letters and 105 ticks. *)
Lemma assigned_text_is_revealed_unit_by_unit_witness :
  let s := replicate 120 97%N in
  let st := run (replicate 105 (Tick 0))
              (attributeChangedCallback "text" None (Some s) constructor) in
  (∀ x, textBox_children st !! x
        = (λ c, if decide (x < 105)
                then classList_add "visible" (char_span [c])
                else char_span [c]) <$> trim s !! x)
  ∧ length (visible_units st) = 105
  ∧ letters st = Some (mkGenerator (seq 0 (length (trim s))) 105)
  ∧ find_timer 0 st = Some (mkTimer 0 106 (bool_decide (100 ≤ 105)))
  ∧ textBox_hidden st = false
  ∧ continueButton_textContent st = label_Continue
  ∧ continueButton_hidden st = continueButton_hidden constructor
  ∧ textBox_data_complete st = textBox_data_complete constructor.
Proof.
  apply (assigned_text_is_revealed_unit_by_unit
           [] "text" None (replicate 120 97%N) 105).
  - discriminate.
  - vm_compute. lia.
  - intros m c _ _.
    change (trim (replicate 120 97%N)) with (replicate 120 97%N).
    by intros [-> _]%lookup_replicate.
Defined.

(** X9: the first page of an assigned text ends on the first whitespace
    character at or after the hundredth unit, when no U+0000 stands
    between the hundredth unit and it.  With [p] the position of that
    character, [p] ticks reveal the units before it and the next resolves
    the page break: the units up to and including [p] are of class
    [visible], the unit before [p] is the only one of class
    [ellipsis-after], the unit after [p] the only one of class
    [ellipsis-before], the new timer is cleared, the button is shown, the
    generator stands behind [p], and the completion marker is as before
    the assignment. *)
Theorem first_page_ends_on_first_late_whitespace
    es name oldValue (s : JSString) p c :
  s ≠ [] →
  99 ≤ p →
  trim s !! p = Some c →
  isWhiteSpace c = true →
  (∀ m c', 99 ≤ m → m < p → trim s !! m = Some c' →
     isWhiteSpace c' = false ∧ c' ≠ 0%N) →
  let st0 := run es constructor in
  let tid := next_intervalID st0 in
  let st := run (replicate p (Tick tid))
              (attributeChangedCallback name oldValue (Some s) st0) in
  let st' := snd (tick tid st) in
  fst (tick tid st) = Returned
  ∧ (∀ x c', trim s !! x = Some c' →
       ∃ u, textBox_children st' !! x = Some u
         ∧ textContent u = parsed c'
         ∧ hidden u = false
         ∧ has_class "visible" u = bool_decide (x ≤ p)
         ∧ has_class "ellipsis-after" u = bool_decide (S x = p)
         ∧ has_class "ellipsis-before" u = bool_decide (x = S p))
  ∧ length (textBox_children st') = length (trim s)
  ∧ S p < length (trim s)
  ∧ letters st' = Some (mkGenerator (seq 0 (length (trim s))) (S p))
  ∧ find_timer tid st' = None
  ∧ continueButton_hidden st' = false
  ∧ continueButton_textContent st' = label_Continue
  ∧ textBox_data_complete st' = textBox_data_complete st0.
Proof.
  intros Hs Hp Hc Hws Hnb st0 tid st st'.
  pose proof (lookup_lt_Some _ _ _ Hc) as Hlt.
  destruct (first_page_ticks es name oldValue s Hs p) as
    (Hf & Hg & Hch & Hl & Hh & Hx & Hd); [lia|done|].
  fold st0 tid st in Hf, Hg, Hch, Hl, Hh, Hx, Hd.
  assert (length (textBox_children st) = length (trim s)) as Hlen.
  { apply length_of_lookups. intros x. rewrite Hch.
    by rewrite fmap_is_Some. }
  assert (S p < length (trim s)) as Hnext.
  { destruct (decide (S p = length (trim s))) as [He|]; [|lia].
    assert (last (trim s) = Some c) as Hlast.
    { rewrite last_lookup, <- He. done. }
    apply trim_last in Hlast. congruence. }
  assert (textBox_children st !! p = Some (char_span [c])) as Hu.
  { rewrite Hch, Hc. simpl. by rewrite decide_False by lia. }
  assert (armed (mkTimer tid (S p) (bool_decide (100 ≤ p))) = true) as Ha.
  { apply armed_iff; simpl; [|lia]. split; [lia|].
    rewrite bool_decide_eq_true. lia. }
  assert (tick tid st =
    (Returned,
     set_continueButton_hidden false
       (set_textBox_children (marked true true p (textBox_children st))
          (clearInterval tid
             (set_letters
                (Some (mkGenerator (seq 0 (length (trim s))) (S p))) st)))))
    as Htick.
  { unfold tick. rewrite Hf.
    rewrite (callback_break _ st _ p (char_span [c]) Hg); try done.
    - destruct p as [|q]; [lia|]. simpl. unfold nextElementSibling.
      rewrite !length_alter, decide_True by lia. done.
    - apply next_Some. simpl. by rewrite lookup_seq_lt by lia.
    - rewrite char_span_text. apply parsed_blank. by left. }
  subst st'. rewrite Htick. simpl. split_and!; try done.
  - intros x c' Hx'.
    assert (textBox_children st !! x
            = Some (if decide (x < p)
                    then classList_add "visible" (char_span [c'])
                    else char_span [c'])) as Hux.
    { by rewrite Hch, Hx'. }
    destruct (marked_lookup_fwd true true p _ _ _ Hux)
      as (u' & Hu' & Ht & Hhid & Hv & Hea & Heb).
    exists u'. split; [done|]. rewrite Ht, Hhid, Hv, Hea, Heb.
    destruct p as [|q]; [lia|]. simpl.
    destruct (decide (x < S q));
      rewrite ?has_class_add, ?has_class_char_span; simpl;
      split_and!; try done; try apply app_nil_r;
      repeat case_bool_decide; try done; lia.
  - by rewrite length_marked.
  - apply find_cleared.
Qed.

(** The theorem for the text whose only whitespace is the 120th unit. *)
Lemma first_page_ends_on_first_late_whitespace_witness :
  let st := run (replicate 119 (Tick 0))
              (attributeChangedCallback "text" None (Some late_space_text)
                 constructor) in
  let st' := snd (tick 0 st) in
  fst (tick 0 st) = Returned
  ∧ (∀ x c', trim late_space_text !! x = Some c' →
       ∃ u, textBox_children st' !! x = Some u
         ∧ textContent u = parsed c'
         ∧ hidden u = false
         ∧ has_class "visible" u = bool_decide (x ≤ 119)
         ∧ has_class "ellipsis-after" u = bool_decide (S x = 119)
         ∧ has_class "ellipsis-before" u = bool_decide (x = 120))
  ∧ length (textBox_children st') = length (trim late_space_text)
  ∧ 120 < length (trim late_space_text)
  ∧ letters st'
    = Some (mkGenerator (seq 0 (length (trim late_space_text))) 120)
  ∧ find_timer 0 st' = None
  ∧ continueButton_hidden st' = false
  ∧ continueButton_textContent st' = label_Continue
  ∧ textBox_data_complete st' = textBox_data_complete constructor.
Proof.
  apply (first_page_ends_on_first_late_whitespace
           [] "text" None late_space_text 119 32%N).
  - discriminate.
  - lia.
  - vm_compute. reflexivity.
  - reflexivity.
  - intros m c' Hm Hlt.
    change (trim late_space_text) with late_space_text.
    unfold late_space_text.
    rewrite lookup_app_l by (rewrite length_replicate; lia).
    by intros [-> _]%lookup_replicate.
Defined.






(** X13: a continue action resumes behind the units already yielded.  In
    any state a run reaches with the completion marker unset, the action
    followed by [j] ticks of the timer it starts hides the units the
    generator had yielded, all of them and only them, and reveals the next
    [j] units, one per tick, provided none of the units yielded from the
    hundredth tick of the new cycle on is whitespace; the units behind
    them are untouched, the generator has advanced by [j] without being
    reset, and the running count of the new timer is [j + 1]. *)
Theorem continue_resumes_behind_the_yielded_units es g j :
  let self := run es constructor in
  textBox_data_complete self = false →
  letters self = Some g →
  gen_index g + j ≤ length (textBox_children self) →
  (∀ m u, 99 ≤ m → m < j →
     textBox_children self !! (gen_index g + m) = Some u →
     trim (textContent u) ≠ []) →
  let tid := next_intervalID self in
  let st := run (PointerUp :: replicate j (Tick tid)) self in
  (∀ x u, textBox_children self !! x = Some u →
     textBox_children st !! x
     = Some (if decide (x < gen_index g) then set_hidden true u
             else if decide (x < gen_index g + j)
                  then classList_add "visible" u else u))
  ∧ letters st = Some (mkGenerator (gen_letters g) (gen_index g + j))
  ∧ find_timer tid st = Some (mkTimer tid (S j) (bool_decide (100 ≤ j)))
  ∧ continueButton_hidden st = true
  ∧ textBox_data_complete st = false.
Proof.
  intros self Hd Hg Hj Hnb tid st.
  pose proof (wf_run es) as Hwf. fold self in Hwf.
  destruct (reveal_inv_run es) as [_ _ Hv _ _ _]. fold self in Hv.
  pose proof (wf_letters _ Hwf g Hg) as Hseq.
  destruct g as [gl k]. simpl in *. subst gl.
  set (n := length (textBox_children self)) in *.
  set (st1 := pointerup self).
  assert (st = run (replicate j (Tick tid)) st1) as Hst by done.
  assert (st1 = showLetters
            (set_continueButton_hidden true
               (set_textBox_children (hide_visible (textBox_children self))
                  self))) as Hst1.
  { unfold st1, pointerup. by rewrite Hd. }
  destruct (reveal_ticks tid 1 false n k st1 j)
    as (Hf' & Hg' & Hc' & _ & Hh' & _ & Hd'); try done; try lia.
  - rewrite Hst1. apply find_fresh, Hwf.
  - by rewrite Hst1.
  - rewrite Hst1. simpl. apply length_hide_visible.
  - intros m u' Hm Hlate. rewrite Hst1. simpl.
    intros (u & Hu & Ht & _)%hide_visible_lookup. rewrite Ht.
    apply (Hnb m u); [lia|done|done].
  - rewrite <- Hst in Hf', Hg', Hc', Hh', Hd'. split_and!.
    + intros x u Hu. rewrite Hc', Hst1. simpl.
      unfold hide_visible. rewrite list_lookup_fmap, Hu. simpl.
      pose proof (Hv _ x u Hg Hu) as Hiff. simpl in Hiff.
      destruct (has_class "visible" u) eqn:Hvis.
      * assert (x < k) by (by apply Hiff).
        rewrite decide_False, decide_True by lia. done.
      * assert (¬ x < k) by (intros Hx%Hiff; done).
        rewrite (decide_False (P := x < k)) by done.
        repeat case_decide; try done; lia.
    + done.
    + rewrite Hf'. do 2 f_equal. apply bool_decide_ext. lia.
    + rewrite Hh', Hst1. done.
    + rewrite Hd', Hst1. done.
Qed.

(** The theorem after the page break on the 100th unit of the 205-unit
    text, for the first 102 units of its second page. *)
Lemma continue_resumes_behind_the_yielded_units_witness :
  let self := run (SetText (Some two_page_text) :: replicate 100 (Tick 0))
                constructor in
  let st := run (PointerUp :: replicate 102 (Tick 1)) self in
  (∀ x u, textBox_children self !! x = Some u →
     textBox_children st !! x
     = Some (if decide (x < 100) then set_hidden true u
             else if decide (x < 100 + 102)
                  then classList_add "visible" u else u))
  ∧ letters st = Some (mkGenerator (seq 0 205) (100 + 102))
  ∧ find_timer 1 st = Some (mkTimer 1 103 (bool_decide (100 ≤ 102)))
  ∧ continueButton_hidden st = true
  ∧ textBox_data_complete st = false.
Proof.
  apply (continue_resumes_behind_the_yielded_units
           (SetText (Some two_page_text) :: replicate 100 (Tick 0))
           (mkGenerator (seq 0 205) 100) 102).
  - vm_compute. reflexivity.
  - vm_compute. reflexivity.
  - vm_compute. lia.
  - intros m u Hm Hlt.
    assert (m = 99 ∨ m = 100 ∨ m = 101) as [-> | [-> | ->]] by lia;
      vm_compute; intros [= <-]; discriminate.
Defined.

(** ** Failing ticks *)

(** X14: in every state a run reaches, a tick fails exactly when its timer
    is active and either the element has no generator, no text having
    been assigned, or the tick resolves a page break on an empty unit, as
    U+0000 leaves one, that is the first or the last unit.  A failing tick
    without a generator changes nothing and leaves its timer active; a
    button action on the element as constructed leads there. *)
Theorem ticks_fail_only_without_a_generator es tid :
  let st := run es constructor in
  (fst (tick tid st) = TypeError
   ↔ ∃ t, find_timer tid st = Some t
       ∧ (letters st = None
          ∨ ∃ g u, letters st = Some g
              ∧ textBox_children st !! gen_index g = Some u
              ∧ armed t = true
              ∧ textContent u = []
              ∧ (gen_index g = 0
                 ∨ S (gen_index g) = length (textBox_children st))))
  ∧ (letters st = None → fst (tick tid st) = TypeError →
     snd (tick tid st) = st)
  ∧ (fst (tick tid (run [PointerUp] constructor)) = TypeError
     ↔ tid = 0).
Proof.
  intros st. pose proof (wf_run es) as Hwf. fold st in Hwf.
  split_and!.
  - destruct (find_timer tid st) as [t|] eqn:Hf;
      [|unfold tick; rewrite Hf; split; [done|by intros (? & ? & _)]].
    destruct (letters st) as [g|] eqn:Hg.
    2:{ unfold tick, callback. rewrite Hf, Hg. split; eauto. }
    pose proof (wf_letters _ Hwf g Hg) as Hseq.
    destruct (decide (gen_index g < length (textBox_children st)))
      as [Hlt|Hge].
    2:{ split.
        - unfold tick, callback, next. rewrite Hf, Hg, Hseq.
          by rewrite lookup_seq_ge by lia.
        - intros (t' & _ & [? | (g' & u & Hg' & Hu & _)]); [done|].
          simplify_eq. apply lookup_lt_Some in Hu. lia. }
    destruct (lookup_lt_is_Some_2 _ _ Hlt) as [u Hu].
    assert (fst (next g) = Some (gen_index g)) as Hnext.
    { apply next_Some. rewrite Hseq. by apply lookup_seq_lt. }
    destruct (armed t && negb (truthy (trim (textContent u)))) eqn:Hbrk.
    + apply andb_prop in Hbrk as [Ha Hws].
      assert (trim (textContent u) = []) as Hws'.
      { by destruct (trim (textContent u)). }
      destruct (tick_break tid t st g _ u Hf Ha Hg Hnext Hu Hws')
        as (bA & bB & _ & _ & HB & -> & _).
      split.
      * destruct bB; [done|]. intros _. exists t. split; [done|]. right.
        exists g, u. split_and!; try done.
        -- destruct (decide (textContent u = [])) as [|Hne]; [done|].
           destruct (whitespace_unit_inner _ Hwf _ _ Hu Hws' Hne).
           assert (false = true) by (apply HB; lia). done.
        -- destruct (decide (gen_index g = 0)); [by left|right].
           destruct (decide (S (gen_index g) < length (textBox_children st)));
             [|lia].
           assert (false = true) by (apply HB; lia). done.
      * intros (t' & _ & [? | (g' & u' & Hg' & _ & _ & _ & Hedge)]);
          [done|]. simplify_eq.
        destruct bB; [|done]. destruct HB as [HB _].
        destruct (HB eq_refl). lia.
    + split.
      * rewrite (tick_reveals tid t st g u Hf Hg); try done.
        -- rewrite Hseq. by apply lookup_seq_lt.
        -- intros Ha Hws. rewrite Ha, Hws in Hbrk. done.
      * intros (t' & Hf' & [? | (g' & u' & Hg' & Hu' & Ha & Ht & _)]);
          [done|]. simplify_eq. rewrite Ha, Ht in Hbrk. done.
  - intros Hn. unfold tick.
    destruct (find_timer tid st); [|done].
    unfold callback. by rewrite Hn.
  - destruct tid as [|tid]; vm_compute; split; done.
Qed.

(** A failing tick with a generator in place: the hundredth tick on the
    text of 99 letters and U+0000. *)
Lemma ticks_fail_only_without_a_generator_example :
  let st := run before_break_at_last constructor in
  fst (tick 0 st) = TypeError
  ∧ (∃ g u, letters st = Some g
       ∧ textBox_children st !! gen_index g = Some u
       ∧ textContent u = []
       ∧ S (gen_index g) = length (textBox_children st)).
Proof.
  split; [by vm_compute|].
  eexists _, _. split_and!; by vm_compute.
Qed.
